(** * game-recommendations-api: the slug derivation, the relationship
      vocabulary, the relationship write path and the graph queries

    The development follows the TypeScript sources: [src/gid.ts] for the slug
    derivation and [src/server.ts] for the vocabulary, the request handlers and
    the Cypher statements they hand to the graph store. *)

From Stdlib Require Import ZArith Ascii String List Bool Lia Permutation Sorted.
From stdpp Require Import base decidable option list sorting gmap strings.

Local Open Scope string_scope.
Local Open Scope list_scope.

(* ===================================================================== *)
(** ** Slug derivation ([src/gid.ts]) *)
(* ===================================================================== *)

Module Gid.

(** A JavaScript string is modelled by its UTF-8 encoding: an ASCII
    character is the byte of its code, every byte of a character beyond
    ASCII is 128 or more. [gidFrom] tells ASCII word characters from
    everything else and yields ASCII only, so the result is the same
    whether the characters beyond ASCII are seen as UTF-16 code units, as the
    regular expressions of the source do, or as bytes. *)
Definition code (c : ascii) : nat := nat_of_ascii c.

(** [\w] of a JavaScript regular expression without the [u] flag:
    [[A-Za-z0-9_]]. *)
Definition isWordChar (c : ascii) : bool :=
  let n := code c in
  (((48 <=? n) && (n <=? 57)) || ((65 <=? n) && (n <=? 90))
   || ((97 <=? n) && (n <=? 122)) || (n =? 95))%nat.

(** [\W] is the complement of [\w]. *)
Definition isNonWordChar (c : ascii) : bool := negb (isWordChar c).

(** Lower-casing of one byte: [A-Z] go to [a-z], every other byte stays. *)
Definition lowerChar (c : ascii) : ascii :=
  let n := code c in
  if ((65 <=? n) && (n <=? 90))%nat then ascii_of_nat (n + 32) else c.

(** U+0130, capital I with dot above: the bytes C4 B0. *)
Definition isCapitalIDot (c1 c2 : ascii) : bool :=
  ((code c1 =? 196) && (code c2 =? 176))%nat.

(** U+212A, the Kelvin sign: the bytes E2 84 AA. *)
Definition isKelvinSign (c1 c2 c3 : ascii) : bool :=
  ((code c1 =? 226) && (code c2 =? 132) && (code c3 =? 170))%nat.

(** [raw.toLowerCase()], up to the characters beyond ASCII that [gidFrom]
    cannot tell apart. ASCII letters are lowered; the two characters whose
    lower case has an ASCII letter are lowered as the runtime does, U+0130 to
    [i] and U+0307 (the bytes CC 87), U+212A to [k]; every other character
    beyond ASCII is kept, where the runtime yields a character beyond ASCII
    as well (its own lower case). *)
Fixpoint toLowerCase (s : list ascii) : list ascii :=
  match s with
  | [] => []
  | c1 :: t =>
      match t with
      | [] => [lowerChar c1]
      | c2 :: t2 =>
          if isCapitalIDot c1 c2 then
            "i"%char :: "204"%char :: "135"%char :: toLowerCase t2
          else
            match t2 with
            | [] => lowerChar c1 :: toLowerCase t
            | c3 :: t3 =>
                if isKelvinSign c1 c2 c3 then "k"%char :: toLowerCase t3
                else lowerChar c1 :: toLowerCase t
            end
      end
  end.

(** [.replace(/\W+/g, '-')]: a left-to-right scan; [inRun] says that the
    previous character belonged to a run of [\W] whose ['-'] is already
    written. *)
Fixpoint replaceNonWordRuns (inRun : bool) (s : list ascii) : list ascii :=
  match s with
  | [] => []
  | c :: t =>
      if isWordChar c then c :: replaceNonWordRuns false t
      else if inRun then replaceNonWordRuns true t
      else "-"%char :: replaceNonWordRuns true t
  end.

(** [.replace(/\W+$/, '')]: the search tries every start position from the
    left; [\W+$] matches at a position exactly when the rest of the string
    is a non-empty run of [\W], and the first match is removed. *)
Fixpoint stripTrailingNonWord (s : list ascii) : list ascii :=
  match s with
  | [] => []
  | c :: t =>
      if forallb isNonWordChar (c :: t) then [] else c :: stripTrailingNonWord t
  end.

(** [converted.startsWith('-')] *)
Definition startsWithDash (s : list ascii) : bool :=
  match s with
  | c :: _ => Ascii.eqb c "-"%char
  | [] => false
  end.

(** The value of [converted] in [gidFrom]. *)
Definition converted (raw : list ascii) : list ascii :=
  stripTrailingNonWord (replaceNonWordRuns false (toLowerCase raw)).

(** [gidFrom] on the characters of the string. *)
Definition gidFromUnits (raw : list ascii) : list ascii :=
  let conv := converted raw in
  list_ascii_of_string "gid"
    ++ (if startsWithDash conv then [] else ["-"%char]) ++ conv.

(** [export function gidFrom(raw: string)] *)
Definition gidFrom (raw : string) : string :=
  string_of_list_ascii (gidFromUnits (list_ascii_of_string raw)).

(** *** The slug as the specification words it *)

(** The maximal runs of word characters of a string, from left to right. *)
Fixpoint wordRuns (s : list ascii) : list (list ascii) :=
  match s with
  | [] => []
  | c :: t =>
      if isWordChar c then
        match t with
        | [] => [[c]]
        | c' :: _ =>
            if isWordChar c' then
              match wordRuns t with
              | w :: ws => (c :: w) :: ws
              | [] => [[c]]
              end
            else [c] :: wordRuns t
        end
      else wordRuns t
  end.

(** The runs joined by a single ['-']. *)
Fixpoint joinDash (ws : list (list ascii)) : list ascii :=
  match ws with
  | [] => []
  | [w] => w
  | w :: ws' => w ++ "-"%char :: joinDash ws'
  end.

(** The alphabet of a slug: [[a-z0-9_-]]. *)
Definition isSlugChar (c : ascii) : bool :=
  let n := code c in
  (((48 <=? n) && (n <=? 57)) || ((97 <=? n) && (n <=? 122))
   || (n =? 95) || (n =? 45))%nat.

(** Whether [converted] keeps a leading ['-']: the string starts with a
    non-word character and holds a word character. *)
Definition leadingDash (s : list ascii) : bool :=
  match s with
  | c :: _ => isNonWordChar c && negb (forallb isNonWordChar s)
  | [] => false
  end.

(** The number of underscores of a string. *)
Definition underscores (s : list ascii) : nat :=
  count_occ ascii_dec s "_"%char.

End Gid.

(* ===================================================================== *)
(** ** The relationship vocabulary ([src/server.ts]) *)
(* ===================================================================== *)

(** [const VALID_RELATIONSHIPS = new Set<GameRelationship>([...])] *)
Definition VALID_RELATIONSHIPS : gset string :=
  {[ "COMPLETE_100"; "BEATEN"; "SET_ASIDE_ENJOYED"; "SET_ASIDE"; "GOT_BORED";
     "WOULD_NOT_LIKE" ]}.

(** [const RELATIONSHIP_DISTANCES = new Map<GameRelationship, number>([...])] *)
Definition RELATIONSHIP_DISTANCES : gmap string Z :=
  list_to_map
    [ ("COMPLETE_100", 1%Z); ("BEATEN", 2%Z); ("SET_ASIDE_ENJOYED", 3%Z);
      ("SET_ASIDE", 5%Z); ("GOT_BORED", 8%Z); ("WOULD_NOT_LIKE", 13%Z) ].

(** [VALID_RELATIONSHIPS.has(relationship)] *)
Definition isValid (k : string) : bool := bool_decide (k ∈ VALID_RELATIONSHIPS).

(** [RELATIONSHIP_DISTANCES.get(relationship)]; [None] is [undefined]. *)
Definition distanceOf (k : string) : option Z := RELATIONSHIP_DISTANCES !! k.

(* ===================================================================== *)
(** ** The graph store *)
(* ===================================================================== *)

(** [type User = { id: string; name: string }] *)
Record User := mkUser { user_id : string; user_name : string }.

(** [type Game = { id: string; name: string; gb_uuid?: string }]; no
    statement of the server writes or reads [gb_uuid]. *)
Record Game := mkGame { game_id : string; game_name : string }.

(** A relationship [(u:User)-[:rel_type {dist: rel_dist}]->(g:Game)], its
    end nodes named by their [id] property. *)
Record Rel := mkRel {
  rel_from : string;
  rel_type : string;
  rel_dist : Z;
  rel_to : string
}.

(** The graph: [User] and [Game] nodes keyed by [id] (the value is the
    [name] property) and the relationships in the order the store scans
    them; a relationship is identified by its position. *)
Record Graph := mkGraph {
  g_users : gmap string string;
  g_games : gmap string string;
  g_rels : list Rel
}.

#[global] Instance User_eq_dec : EqDecision User.
Proof. solve_decision. Defined.
#[global] Instance Game_eq_dec : EqDecision Game.
Proof. solve_decision. Defined.
#[global] Instance Rel_eq_dec : EqDecision Rel.
Proof. solve_decision. Defined.

(** The statements the handlers hand to [session.run]. *)
Inductive Query :=
  | MergeRelationship (userId gameId relationship : string) (dist : Z)
  | MatchGameUsers (gameId : string).

(** The store as a handler sees it: the graph and the statements handed to
    [session.run] so far. *)
Record Store := mkStore { graph : Graph; issued : list Query }.

(** What becomes of a statement handed to [session.run]: the promise
    resolves, the statement done, or it rejects with an error, the graph left
    as it was. *)
Inductive RunOutcome :=
  | Resolved
  | Rejected (message : string).

(** [MATCH (u:User {id: $userId}), (g:Game {id: $gameId})
     MERGE (u)-[:${relationship} {dist: $dist}]->(g)]:
    without both nodes there is no row and nothing is written; with them
    the relationship is created unless one of that type and [dist]
    already links the two nodes. *)
Definition mergeRelationship (userId gameId relationship : string) (dist : Z)
    (G : Graph) : Graph :=
  match g_users G !! userId, g_games G !! gameId with
  | Some _, Some _ =>
      let r := mkRel userId relationship dist gameId in
      if decide (r ∈ g_rels G) then G
      else mkGraph (g_users G) (g_games G) (g_rels G ++ [r])
  | _, _ => G
  end.

(** The rows of [MATCH (u:User {id: $userId})-[r]->(g:Game)], the pattern of
    GET /users/:userid/games, as (game id, kind, distance). *)
Definition edgesOf (G : Graph) (userId : string) : list (string * string * Z) :=
  (λ r, (rel_to r, rel_type r, rel_dist r))
    <$> filter (λ r, rel_from r = userId) (g_rels G).

(* ===================================================================== *)
(** ** Request handlers ([src/server.ts]) *)
(* ===================================================================== *)

(** [type UserWithRelationship = { user: User; relationship: ... }] *)
Record UserWithRelationship := mkUWR {
  uwr_user : User;
  uwr_relationship : string
}.

Inductive Body :=
  | Message (message : string)
  | GameAndUsers (game : Game) (users : list UserWithRelationship).

(** What a handler sends: [res.sendStatus(n)], [res.status(n).json(body)]
    ([res.json(body)] is status 200), or nothing when the handler throws
    outside its [try] block. *)
Inductive Response :=
  | SendStatus (status : Z)
  | Json (status : Z) (body : Body)
  | Unanswered.

(** POST /users/:userid/games/:gameid/relationship, the write path the spec
    calls [upsertEdge]; [run] is what becomes of the statement inside the
    [try] block: [res.sendStatus(200)] when it resolves, the [catch] branch
    with [error.message] when it rejects. [!userId] holds of the empty
    string. *)
Definition upsertEdgeRun (run : RunOutcome)
    (userId gameId relationship : string) (st : Store) : Response * Store :=
  if decide (userId = "") then (Json 400 (Message "Invalid userid"), st)
  else if decide (gameId = "") then (Json 400 (Message "Invalid gameid"), st)
  else if negb (isValid relationship) then
    (Json 400 (Message ("Invalid relationship: " ++ relationship)), st)
  else
    match distanceOf relationship with
    | None => (Unanswered, st) (* neo4j.int(undefined) throws before the try *)
    | Some dist =>
        let statement := MergeRelationship userId gameId relationship dist in
        match run with
        | Resolved =>
            (SendStatus 200,
             mkStore
               (mergeRelationship userId gameId relationship dist (graph st))
               (issued st ++ [statement]))
        | Rejected message =>
            (Json 500 (Message message),
             mkStore (graph st) (issued st ++ [statement]))
        end
    end.

(** The handler when its statement resolves. *)
Definition upsertEdge (userId gameId relationship : string) (st : Store)
    : Response * Store :=
  upsertEdgeRun Resolved userId gameId relationship st.

(** One record of the result of GET /games/:gameId's statement. *)
Record GameUserRecord := mkGUR {
  gur_game : Game;
  gur_user : User;
  gur_relationship : string
}.

(** [MATCH (n:Game { id: $gameId })<-[r]-(u:User)
     RETURN n AS game, u AS user, type(r) as relationship]. *)
Definition matchGameUsers (G : Graph) (gameId : string) : list GameUserRecord :=
  match g_games G !! gameId with
  | None => []
  | Some gname =>
      omap (λ r,
              if decide (rel_to r = gameId) then
                uname ← g_users G !! rel_from r;
                Some (mkGUR (mkGame gameId gname) (mkUser (rel_from r) uname)
                            (rel_type r))
              else None)
           (g_rels G)
  end.

(** [error.message] of the [TypeError] of [result.records[0].get] on an
    empty [records] (the wording of Node 12). *)
Definition undefinedGetMessage : string :=
  "Cannot read property 'get' of undefined".

(** The body of GET /games/:gameId after [session.run] answered with
    [records]. *)
Definition getGameResponse (records : list GameUserRecord) : Response :=
  let users :=
    (λ record, mkUWR (mkUser (user_id (gur_user record))
                             (user_name (gur_user record)))
                     (gur_relationship record)) <$> records in
  match records !! 0%nat with
  | None => Json 500 (Message undefinedGetMessage)
  | Some r0 =>
      let g := gur_game r0 in
      Json 200 (GameAndUsers (mkGame (game_id g) (game_name g)) users)
  end.

(** GET /games/:gameId; [run] is what becomes of its statement: the records
    when it resolves, the [catch] branch with [error.message] when it
    rejects. *)
Definition getGameRun (run : RunOutcome) (gameId : string) (st : Store)
    : Response * Store :=
  if decide (gameId = "") then (Json 400 (Message "GameId required"), st)
  else
    (match run with
     | Resolved => getGameResponse (matchGameUsers (graph st) gameId)
     | Rejected message => Json 500 (Message message)
     end,
     mkStore (graph st) (issued st ++ [MatchGameUsers gameId])).

(** The handler when its statement resolves. *)
Definition getGame (gameId : string) (st : Store) : Response * Store :=
  getGameRun Resolved gameId st.

(* ===================================================================== *)
(** ** The recommendations statement ([src/server.ts], the draft of
       GET /users/:userid/recommendations) *)
(* ===================================================================== *)

(** The draft statement:
<<
  match (a:User {id: $userId})-[b]->(c:Game)<-[d]-(e:User)-[f]->(g:Game)
  where not (a)-[]->(g) and b.dist = d.dist
  with sum(b.dist + d.dist + f.dist) as dist, a, b, c, d, e, f, g
  return distinct min(dist) as mDist, g as rec,
         collect(c) as reason_games, collect(type(b)) as reason_rel,
         collect(type(d)) as reason_rel_other ORDER BY mDist
>> *)

(** A relationship together with its identity in the store. *)
Definition IRel : Type := nat * Rel.

Definition relationships (G : Graph) : list IRel := imap pair (g_rels G).

(** One match of the pattern: the relationships bound to [b], [d] and [f].
    The nodes are their ends: [a] and [c] those of [b], [e] the start of
    [d] and of [f], [g] the end of [f]. *)
Record Path := mkPath { p_b : IRel; p_d : IRel; p_f : IRel }.

#[global] Instance Path_eq_dec : EqDecision Path.
Proof. solve_decision. Defined.

Definition node_a (p : Path) : string := rel_from (p_b p).2.
Definition node_c (p : Path) : string := rel_to (p_b p).2.
Definition node_g (p : Path) : string := rel_to (p_f p).2.

(** The pattern: [b] leaves the user [a], [d] enters the game [b] enters,
    [f] leaves the user [d] leaves; one [MATCH] binds a relationship at most
    once, so the three are pairwise different relationships. *)
Definition matchesPattern (userId : string) (b d f : IRel) : Prop :=
  rel_from b.2 = userId ∧ rel_to d.2 = rel_to b.2 ∧ rel_from f.2 = rel_from d.2
  ∧ b.1 ≠ d.1 ∧ d.1 ≠ f.1 ∧ b.1 ≠ f.1.

#[global] Instance matchesPattern_dec userId b d f :
  Decision (matchesPattern userId b d f).
Proof. unfold matchesPattern. apply _. Defined.

Definition matchPaths (G : Graph) (userId : string) : list Path :=
  b ← relationships G; d ← relationships G; f ← relationships G;
  if decide (matchesPattern userId b d f) then [mkPath b d f] else [].

(** [(a)-[]->(g)] *)
Definition connected (G : Graph) (u g : string) : Prop :=
  Exists (λ r, rel_from r = u ∧ rel_to r = g) (g_rels G).

(** [where not (a)-[]->(g) and b.dist = d.dist] *)
Definition whereClause (G : Graph) (p : Path) : Prop :=
  ¬ connected G (node_a p) (node_g p) ∧ rel_dist (p_b p).2 = rel_dist (p_d p).2.

#[global] Instance whereClause_dec G p : Decision (whereClause G p).
Proof. unfold whereClause, connected. apply _. Defined.

(** [b.dist + d.dist + f.dist] *)
Definition pathCost (p : Path) : Z :=
  (rel_dist (p_b p).2 + rel_dist (p_d p).2 + rel_dist (p_f p).2)%Z.

(** The keys of a grouping, each once, in the order of their first row. *)
Fixpoint distinctFrom {K} `{EqDecision K} (seen keys : list K) : list K :=
  match keys with
  | [] => []
  | k :: t =>
      if decide (k ∈ seen) then distinctFrom seen t
      else k :: distinctFrom (k :: seen) t
  end.

Definition distinct {K} `{EqDecision K} (keys : list K) : list K :=
  distinctFrom [] keys.

(** Aggregation: one group per value of the grouping key, holding the rows
    with that key. *)
Definition groupBy {A K} `{EqDecision K} (key : A → K) (rows : list A)
    : list (K * list A) :=
  (λ k, (k, filter (λ r, key r = k) rows)) <$> distinct (key <$> rows).

Definition sumZ (l : list Z) : Z := foldr Z.add 0%Z l.

(** [with sum(b.dist + d.dist + f.dist) as dist, a, b, c, d, e, f, g]:
    every variable of the path is a grouping key. *)
Definition withDist (paths : list Path) : list (Z * Path) :=
  (λ grp, (sumZ (pathCost <$> grp.2), grp.1)) <$> groupBy id paths.

(** A row of the result. [rec] and the elements of [reason_games] are game
    nodes, named by their [id]. *)
Record Candidate := mkCandidate {
  mDist : Z;
  rec : string;
  reason_games : list string;
  reason_rel : list string;
  reason_rel_other : list string
}.

#[global] Instance Candidate_eq_dec : EqDecision Candidate.
Proof. solve_decision. Defined.

(** [min] over the rows of a group ([null], here [None], over no row). *)
Definition minZ (l : list Z) : option Z :=
  match l with
  | [] => None
  | x :: t => Some (foldl Z.min x t)
  end.

(** The row of one group of the [return] clause: [min(dist)], the key [g],
    and [collect(c)], [collect(type(b))], [collect(type(d))] over the rows of
    the group. *)
Definition candidateOf (g : string) (grp : list (Z * Path)) : option Candidate :=
  m ← minZ (fst <$> grp);
  Some (mkCandidate m g
          ((λ row, node_c row.2) <$> grp)
          ((λ row, rel_type (p_b row.2).2) <$> grp)
          ((λ row, rel_type (p_d row.2).2) <$> grp)).

(** [return distinct min(dist) as mDist, g as rec, collect(c), collect(type(b)),
    collect(type(d))]: [g] is the one grouping key. *)
Definition returnRows (rows : list (Z * Path)) : list Candidate :=
  distinct
    (omap (λ grp : string * list (Z * Path), candidateOf grp.1 grp.2)
          (groupBy (λ row, node_g row.2) rows)).

(** The order of [ORDER BY mDist]. *)
Definition byDist (c1 c2 : Candidate) : Prop := (mDist c1 ≤ mDist c2)%Z.

#[global] Instance byDist_dec c1 c2 : Decision (byDist c1 c2).
Proof. unfold byDist. apply _. Defined.

(** [ORDER BY mDist]: the clause asks for the rows in ascending [mDist] and
    for nothing else, so every arrangement of the rows that is ascending in
    [mDist] is a result it admits; which one comes, among rows of equal
    [mDist], is left to the store. *)
Definition orderedByDist (rows result : list Candidate) : Prop :=
  result ≡ₚ rows ∧ Sorted byDist result.

(** One of these arrangements, computed by a merge sort. *)
Definition orderByDist (rows : list Candidate) : list Candidate :=
  merge_sort byDist rows.

(** The rows of the [match ... where ... with ...] part. *)
Definition scoredPaths (G : Graph) (userId : string) : list (Z * Path) :=
  withDist (filter (whereClause G) (matchPaths G userId)).

(** The results the statement admits for [$userId]. *)
Definition recommendResult (G : Graph) (userId : string)
    (result : list Candidate) : Prop :=
  orderedByDist (returnRows (scoredPaths G userId)) result.

(** One result of the statement for [$userId]: the rows (targets, scores and
    evidence are the same in every result) in the order of [orderByDist]. *)
Definition recommend (G : Graph) (userId : string) : list Candidate :=
  orderByDist (returnRows (scoredPaths G userId)).

(* ===================================================================== *)
(** ** Invariants of the write path *)
(* ===================================================================== *)

(** The pair a relationship links and its kind. *)
Definition relKey (r : Rel) : string * string * string :=
  (rel_from r, rel_to r, rel_type r).

(** At most one relationship of a kind between a user and a game. *)
Definition oneEdgePerKind (G : Graph) : Prop := NoDup (relKey <$> g_rels G).

(** Every relationship carries the distance of its kind. *)
Definition canonicalDistances (G : Graph) : Prop :=
  Forall (λ r, distanceOf (rel_type r) = Some (rel_dist r)) (g_rels G).

(** The relationships between a user and a game. *)
Definition between (G : Graph) (userId gameId : string) : list Rel :=
  filter (λ r, rel_from r = userId ∧ rel_to r = gameId) (g_rels G).

(** The states of the store: it starts without relationships, and the only
    statement that writes one is that of [upsertEdge]; the calls of the two
    handlers are followed whether their statements resolve or reject. *)
Inductive reachable : Store → Prop :=
  | reachable_init st : g_rels (graph st) = [] → reachable st
  | reachable_upsert st run userId gameId relationship :
      reachable st →
      reachable (upsertEdgeRun run userId gameId relationship st).2
  | reachable_get st run gameId :
      reachable st → reachable (getGameRun run gameId st).2.


(* ===================================================================== *)
(** ** Example graphs *)
(* ===================================================================== *)

(** The graph of the first recommendation scenario: [A] and [B] completed
    [G1], [B] has beaten [G2]. *)
Definition scenarioGraph : Graph :=
  mkGraph {[ "A" := "Ann"; "B" := "Bob" ]}
          {[ "G1" := "Game One"; "G2" := "Game Two" ]}
          [ mkRel "A" "COMPLETE_100" 1 "G1";
            mkRel "B" "COMPLETE_100" 1 "G1";
            mkRel "B" "BEATEN" 2 "G2" ].

(** A graph with nodes only. *)
Definition nodesOnlyGraph : Graph :=
  mkGraph {[ "A" := "Ann"; "B" := "Bob" ]}
          {[ "G1" := "Game One"; "G2" := "Game Two" ]} [].


(* ===================================================================== *)
(** ** The recommendation claims in the words of the specification *)
(* ===================================================================== *)

(** A qualifying 2-hop path [u -d1-> g <-d2- v -d3-> g'] of the
    specification: three relationships of the graph, the first from [u], the
    second into the game of the first and of equal distance, the third from
    the user of the second, and [u] not connected to the game of the third. *)
Definition qualifying (G : Graph) (u : string) (e1 e2 e3 : Rel) : Prop :=
  e1 ∈ g_rels G ∧ e2 ∈ g_rels G ∧ e3 ∈ g_rels G
  ∧ rel_from e1 = u ∧ rel_to e2 = rel_to e1 ∧ rel_from e3 = rel_from e2
  ∧ rel_dist e1 = rel_dist e2 ∧ ¬ connected G u (rel_to e3).

(** The cost [d1 + d2 + d3] of a path. *)
Definition costOf (e1 e2 e3 : Rel) : Z :=
  (rel_dist e1 + rel_dist e2 + rel_dist e3)%Z.

(** The order the specification asks of the result: ascending score, and
    ascending game identifier among equal scores. *)
Definition scoreThenId (c1 c2 : Candidate) : Prop :=
  (mDist c1 < mDist c2)%Z
  ∨ (mDist c1 = mDist c2 ∧ String.leb (rec c1) (rec c2) = true).

(** The relationship kinds a result row carries. *)
Definition evidenceKinds (c : Candidate) : list string :=
  reason_rel c ++ reason_rel_other c.

(** Two targets of equal score: [B], who completed [G1] as [A] did, has
    beaten [G3] and [G2]. *)
Definition tieGraph : Graph :=
  mkGraph {[ "A" := "Ann"; "B" := "Bob" ]}
          {[ "G1" := "Game One"; "G2" := "Game Two"; "G3" := "Game Three" ]}
          [ mkRel "A" "COMPLETE_100" 1 "G1";
            mkRel "B" "COMPLETE_100" 1 "G1";
            mkRel "B" "BEATEN" 2 "G3";
            mkRel "B" "BEATEN" 2 "G2" ].

(** The same relationships, the last two scanned in the other order. *)
Definition tieGraphSwapped : Graph :=
  mkGraph (g_users tieGraph) (g_games tieGraph)
          [ mkRel "A" "COMPLETE_100" 1 "G1";
            mkRel "B" "COMPLETE_100" 1 "G1";
            mkRel "B" "BEATEN" 2 "G2";
            mkRel "B" "BEATEN" 2 "G3" ].

(** A second, costlier path to [G2]: [A] and [C] set [G4] aside, [C] set
    [G2] aside and enjoyed it. *)
Definition twoPathGraph : Graph :=
  mkGraph {[ "A" := "Ann"; "B" := "Bob"; "C" := "Cy" ]}
          {[ "G1" := "Game One"; "G2" := "Game Two"; "G4" := "Game Four" ]}
          [ mkRel "A" "SET_ASIDE" 5 "G4";
            mkRel "C" "SET_ASIDE" 5 "G4";
            mkRel "C" "SET_ASIDE_ENJOYED" 3 "G2";
            mkRel "A" "COMPLETE_100" 1 "G1";
            mkRel "B" "COMPLETE_100" 1 "G1";
            mkRel "B" "BEATEN" 2 "G2" ].


(* ===================================================================== *)
(** ** Further notions for the slug derivation *)
(* ===================================================================== *)

(** Words as [Gid.wordRuns] yields them: not empty, of word characters. *)
Definition cleanWords (ws : list (list ascii)) : Prop :=
  Forall (λ w, w ≠ [] ∧ forallb Gid.isWordChar w = true) ws.

(** The Kelvin sign U+212A, one character that is not a word character. *)
Definition kelvinSign : string :=
  String "226"%char (String "132"%char (String "170"%char EmptyString)).

(** Capital I with dot above, U+0130, twice. *)
Definition twoCapitalIDots : string :=
  String "196"%char (String "176"%char
    (String "196"%char (String "176"%char EmptyString))).

(** No ['-'] is followed by another one. *)
Fixpoint dashesApart (s : list ascii) : bool :=
  match s with
  | [] => true
  | c :: t =>
      (if Ascii.eqb c "-"%char then negb (Gid.startsWithDash t) else true)
      && dashesApart t
  end.


(* ===================================================================== *)
(** ** Further notions for the write path *)
(* ===================================================================== *)

(** The relationship a call of [upsertEdge] hands to [MERGE] with both of its
    nodes matched; [None] when the call is rejected or a node is missing. *)
Definition writtenBy (G : Graph) (u g k : string) : option Rel :=
  if decide (u = "") then None
  else if decide (g = "") then None
  else if isValid k then
    d ← distanceOf k;
    _ ← g_users G !! u;
    _ ← g_games G !! g;
    Some (mkRel u k d g)
  else None.

(** [MERGE] of a relationship between matched nodes. *)
Definition addRel (o : option Rel) (G : Graph) : Graph :=
  match o with
  | Some r =>
      if decide (r ∈ g_rels G) then G
      else mkGraph (g_users G) (g_games G) (g_rels G ++ [r])
  | None => G
  end.

(** A relationship as the write path leaves it: of a kind of the vocabulary,
    with the distance of the kind, between nodes of the graph. *)
Definition wellFormedRel (G : Graph) (r : Rel) : Prop :=
  isValid (rel_type r) = true
  ∧ distanceOf (rel_type r) = Some (rel_dist r)
  ∧ is_Some (g_users G !! rel_from r)
  ∧ is_Some (g_games G !! rel_to r).


(* ===================================================================== *)
(** ** Further notions for the recommendations statement *)
(* ===================================================================== *)

(** The rows of the group of the target [g] in the [return] clause. *)
Definition groupOf (G : Graph) (u g : string) : list (Z * Path) :=
  filter (λ row : Z * Path, node_g row.2 = g) (scoredPaths G u).


(* ===================================================================== *)
(** ** POST /games ([src/server.ts]) *)
(* ===================================================================== *)

(** The answers of POST /games: [res.status(400).json({ message })],
    [res.json({ id, name })] and [res.status(500).json({ message })]. *)
Inductive CreateAnswer :=
  | CreateRefused (message : string)
  | CreatedGame (id name : string)
  | CreateFailed (message : string).

(** POST /games. [name] is [req.body.name], a string or missing; [!name]
    holds of a missing name and of the empty string. The result is the
    parameters [{ id, name }] of the statement
    [CREATE (:Game { id: $id, name: $name })] when it is issued, and the
    answer, which depends on the [outcome] of the statement. *)
Definition postGames (name : option string) (outcome : RunOutcome)
    : option (string * string) * CreateAnswer :=
  match name with
  | None => (None, CreateRefused "Game name required")
  | Some n =>
      if decide (n = "") then (None, CreateRefused "Game name required")
      else
        let id := Gid.gidFrom n in
        (Some (id, n),
         match outcome with
         | Resolved => CreatedGame id n
         | Rejected message => CreateFailed message
         end)
  end.


(* ===================================================================== *)
(** * Properties *)
(* ===================================================================== *)

(** ** The slug derivation *)

(** Case analysis on the eight bits of a byte. *)
Ltac each_code_unit c := destruct c as [[] [] [] [] [] [] [] []].

Section GidProperties.
Import Gid.

Implicit Types (c : ascii) (s : list ascii).

Lemma dash_nonword : isNonWordChar "-" = true.
Proof. reflexivity. Qed.

Lemma isNonWordChar_false c : isNonWordChar c = false ↔ isWordChar c = true.
Proof. unfold isNonWordChar. destruct (isWordChar c); naive_solver. Qed.

(** Replacing the runs neither adds nor removes word characters. *)
Lemma replace_all_nonword inRun s :
  forallb isNonWordChar (replaceNonWordRuns inRun s) = forallb isNonWordChar s.
Proof.
  revert inRun. induction s as [|c t IH]; intros inRun; [done|].
  simpl. unfold isNonWordChar at 2. destruct (isWordChar c) eqn:Hc; simpl.
  - unfold isNonWordChar at 1. by rewrite Hc.
  - destruct inRun; simpl; rewrite ?IH; done.
Qed.

Lemma wordRuns_nil s : wordRuns s = [] ↔ forallb isNonWordChar s = true.
Proof.
  induction s as [|c t IH]; [done|].
  simpl. unfold isNonWordChar at 1. destruct (isWordChar c) eqn:Hc; simpl.
  - split; [|done].
    destruct t as [|c' t']; [done|].
    destruct (isWordChar c'); [|done].
    by destruct (wordRuns (c' :: t')).
  - done.
Qed.

(** Every run starts with a word character. *)
Lemma wordRuns_head s :
  match wordRuns s with
  | [] => True
  | w :: _ => ∃ c w', w = c :: w' ∧ isWordChar c = true
  end.
Proof.
  induction s as [|c t IH]; [done|].
  simpl. destruct (isWordChar c) eqn:Hc; [|done].
  destruct t as [|c' t']; [by eauto|].
  destruct (isWordChar c'); [|by eauto].
  destruct (wordRuns (c' :: t')); eauto.
Qed.

Lemma joinDash_cons_cons c w ws : joinDash ((c :: w) :: ws) = c :: joinDash (w :: ws).
Proof. by destruct ws. Qed.

Lemma startsWithDash_join s : startsWithDash (joinDash (wordRuns s)) = false.
Proof.
  pose proof (wordRuns_head s) as H.
  destruct (wordRuns s) as [|w ws]; [done|].
  destruct H as (c & w' & -> & Hc). rewrite joinDash_cons_cons. simpl.
  destruct (Ascii.eqb_spec c "-"); [subst; discriminate|done].
Qed.

Lemma strip_word c s :
  isWordChar c = true →
  stripTrailingNonWord (c :: s) = c :: stripTrailingNonWord s.
Proof. intros Hc. simpl. unfold isNonWordChar at 1. by rewrite Hc. Qed.

Lemma wordRuns_word c t :
  isWordChar c = true →
  wordRuns (c :: t)
  = match t with
    | [] => [[c]]
    | c' :: _ =>
        if isWordChar c' then
          match wordRuns t with
          | w :: ws => (c :: w) :: ws
          | [] => [[c]]
          end
        else [c] :: wordRuns t
    end.
Proof. intros Hc. simpl. rewrite Hc. by destruct t. Qed.

Lemma wordRuns_nonword c t : isWordChar c = false → wordRuns (c :: t) = wordRuns t.
Proof. intros Hc. simpl. by rewrite Hc. Qed.

Lemma joinDash_word_step c t :
  isWordChar c = true →
  joinDash (wordRuns (c :: t))
  = c :: (if leadingDash t then "-"%char :: joinDash (wordRuns t)
          else joinDash (wordRuns t)).
Proof.
  intros Hc. rewrite wordRuns_word by done.
  destruct t as [|c' t']; [done|].
  unfold leadingDash, isNonWordChar at 1.
  destruct (isWordChar c') eqn:Hc'; cbn [negb andb].
  - pose proof (wordRuns_nil (c' :: t')) as Hnil.
    destruct (wordRuns (c' :: t')) as [|w ws] eqn:Hw.
    + destruct Hnil as [Hnil _]. specialize (Hnil eq_refl).
      cbn [forallb] in Hnil. unfold isNonWordChar at 1 in Hnil.
      by rewrite Hc' in Hnil.
    + by rewrite joinDash_cons_cons.
  - cbn [forallb]. unfold isNonWordChar at 1. rewrite Hc'. cbn [negb andb].
    rewrite (wordRuns_nonword c' t') by done.
    destruct (forallb isNonWordChar t') eqn:Hall; cbn [negb].
    + apply wordRuns_nil in Hall. by rewrite Hall.
    + destruct (wordRuns t') as [|w ws] eqn:Hw'; [|done].
      assert (forallb isNonWordChar t' = true) by by apply wordRuns_nil.
      congruence.
Qed.

(** The two scans against the runs of word characters. *)
Lemma strip_replace s :
  stripTrailingNonWord (replaceNonWordRuns true s) = joinDash (wordRuns s)
  ∧ stripTrailingNonWord (replaceNonWordRuns false s)
    = if leadingDash s then "-"%char :: joinDash (wordRuns s)
      else joinDash (wordRuns s).
Proof.
  induction s as [|c t [IHt IHf]]; [done|].
  destruct (isWordChar c) eqn:Hc.
  - assert (∀ b, stripTrailingNonWord (replaceNonWordRuns b (c :: t))
                = joinDash (wordRuns (c :: t))) as Hboth.
    { intros b. simpl replaceNonWordRuns. rewrite Hc.
      rewrite strip_word, IHf, joinDash_word_step by done. done. }
    split; [apply Hboth|].
    rewrite Hboth. unfold leadingDash, isNonWordChar at 1. by rewrite Hc.
  - assert (wordRuns (c :: t) = wordRuns t) as Hw by (simpl; by rewrite Hc).
    split.
    + simpl replaceNonWordRuns. rewrite Hc, Hw. done.
    + simpl replaceNonWordRuns. rewrite Hc, Hw.
      unfold leadingDash. cbn [forallb]. unfold isNonWordChar at 1 2.
      rewrite Hc. cbn [negb andb].
      cbn [stripTrailingNonWord forallb]. rewrite dash_nonword. cbn [andb].
      rewrite replace_all_nonword, IHt.
      destruct (forallb isNonWordChar t) eqn:Hall; cbn [negb]; [|done].
      apply wordRuns_nil in Hall. by rewrite Hall.
Qed.

(** [gidFrom] is ["gid-"] followed by the lower-cased runs of word characters
    joined by single dashes. *)
Lemma gidFromUnits_wordRuns s :
  gidFromUnits s
  = list_ascii_of_string "gid-" ++ joinDash (wordRuns (toLowerCase s)).
Proof.
  unfold gidFromUnits, converted.
  destruct (strip_replace (toLowerCase s)) as [_ ->].
  destruct (leadingDash (toLowerCase s)); simpl.
  - done.
  - by rewrite startsWithDash_join.
Qed.

Lemma gidFrom_units raw :
  list_ascii_of_string (gidFrom raw) = gidFromUnits (list_ascii_of_string raw).
Proof. unfold gidFrom. apply list_ascii_of_string_of_list_ascii. Qed.

(** **** The alphabet of the result *)

Lemma lower_word_slug c :
  isWordChar (lowerChar c) = true → isSlugChar (lowerChar c) = true.
Proof. each_code_unit c; vm_compute; done. Qed.

Lemma replace_elem inRun s x :
  x ∈ replaceNonWordRuns inRun s → x = "-"%char ∨ (x ∈ s ∧ isWordChar x = true).
Proof.
  revert inRun. induction s as [|c t IH]; intros inRun; simpl; [by inv 1|].
  destruct (isWordChar c) eqn:Hc.
  - intros [->|Hx]%elem_of_cons.
    + right. split; [left|done].
    + destruct (IH _ Hx) as [?|[??]]; [by left|]. right. split; [by right|done].
  - assert (∀ b, x ∈ replaceNonWordRuns b t →
                 x = "-"%char ∨ x ∈ c :: t ∧ isWordChar x = true) as Ht.
    { intros b Hx. destruct (IH _ Hx) as [?|[??]]; [by left|].
      right. split; [by right|done]. }
    destruct inRun; [by apply Ht|].
    intros [->|Hx]%elem_of_cons; [by left|by eapply Ht].
Qed.

Lemma strip_elem s x : x ∈ stripTrailingNonWord s → x ∈ s.
Proof.
  induction s as [|c t IH]; [done|].
  cbn [stripTrailingNonWord]. destruct (forallb isNonWordChar (c :: t)); [by inv 1|].
  intros [->|Hx]%elem_of_cons; [left|right; auto].
Qed.

Lemma join_elem_converted s x :
  x ∈ joinDash (wordRuns (toLowerCase s)) → x ∈ converted s.
Proof.
  unfold converted. destruct (strip_replace (toLowerCase s)) as [_ ->].
  destruct (leadingDash (toLowerCase s)); [by right|done].
Qed.

(** The bytes of the two characters that are lowered as a whole. *)
Lemma isCapitalIDot_bytes c1 c2 :
  isCapitalIDot c1 c2 = true → c1 = "196"%char ∧ c2 = "176"%char.
Proof.
  unfold isCapitalIDot, code. intros [H1 H2]%andb_true_iff.
  apply Nat.eqb_eq in H1, H2.
  rewrite <- (ascii_nat_embedding c1), <- (ascii_nat_embedding c2), H1, H2. done.
Qed.

Lemma isKelvinSign_bytes c1 c2 c3 :
  isKelvinSign c1 c2 c3 = true →
  c1 = "226"%char ∧ c2 = "132"%char ∧ c3 = "170"%char.
Proof.
  unfold isKelvinSign, code. intros [[H1 H2]%andb_true_iff H3]%andb_true_iff.
  apply Nat.eqb_eq in H1, H2, H3.
  rewrite <- (ascii_nat_embedding c1), <- (ascii_nat_embedding c2),
    <- (ascii_nat_embedding c3), H1, H2, H3. done.
Qed.

(** Induction along the steps of [toLowerCase]: U+0130, U+212A, or one
    byte. *)
Lemma toLowerCase_steps (P : list ascii → list ascii → Prop) :
  P [] [] →
  (∀ t r, P t r →
     P ("196" :: "176" :: t)%char ("i" :: "204" :: "135" :: r)%char) →
  (∀ t r, P t r → P ("226" :: "132" :: "170" :: t)%char ("k"%char :: r)) →
  (∀ c t r, P t r → P (c :: t) (lowerChar c :: r)) →
  ∀ s, P s (toLowerCase s).
Proof.
  intros Hnil Hdot Hkelvin Hbyte s.
  assert (∀ n s, (length s ≤ n)%nat → P s (toLowerCase s)) as Hlen;
    [|by apply (Hlen (length s))].
  clear s. induction n as [|n IH]; intros s Hs.
  { destruct s; [done|cbn in Hs; lia]. }
  destruct s as [|c1 [|c2 t2]]; [done|by apply (Hbyte c1 [] [])|].
  cbn [length] in Hs. cbn [toLowerCase].
  destruct (isCapitalIDot c1 c2) eqn:Hd.
  { apply isCapitalIDot_bytes in Hd as [-> ->]. apply Hdot, IH. lia. }
  assert (P (c2 :: t2) (toLowerCase (c2 :: t2))) as Ht
    by (apply IH; cbn [length]; lia).
  destruct t2 as [|c3 t3]; [by apply Hbyte|].
  destruct (isKelvinSign c1 c2 c3) eqn:Hk.
  { apply isKelvinSign_bytes in Hk as (-> & -> & ->). apply Hkelvin, IH.
    cbn [length] in Hs. lia. }
  by apply Hbyte.
Qed.

(** The lower-cased string has no capital letter: its word characters are
    characters of a slug. *)
Lemma toLowerCase_word_slug s x :
  x ∈ toLowerCase s → isWordChar x = true → isSlugChar x = true.
Proof.
  revert x. apply (toLowerCase_steps
    (λ _ r, ∀ x, x ∈ r → isWordChar x = true → isSlugChar x = true)).
  - by intros x ?%not_elem_of_nil.
  - intros t r IH x. rewrite !elem_of_cons.
    intros [->|[->|[->|?]]]; [done|done|done|by apply IH].
  - intros t r IH x. rewrite elem_of_cons. intros [->|?]; [done|by apply IH].
  - intros c t r IH x. rewrite elem_of_cons.
    intros [->|?]; [apply lower_word_slug|by apply IH].
Qed.

Lemma join_slug s :
  forallb isSlugChar (joinDash (wordRuns (toLowerCase s))) = true.
Proof.
  apply forallb_forall. intros x Hx%list_elem_of_In%join_elem_converted.
  apply strip_elem, replace_elem in Hx as [->|[Hin Hw]]; [done|].
  by apply (toLowerCase_word_slug s).
Qed.

(** **** Underscores *)

Lemma lower_underscore c : lowerChar c = "_"%char ↔ c = "_"%char.
Proof. each_code_unit c; vm_compute; split; congruence. Qed.

Lemma underscores_lower s : underscores (toLowerCase s) = underscores s.
Proof.
  apply (toLowerCase_steps (λ s r, underscores r = underscores s)).
  - done.
  - intros t r IH. unfold underscores in *. cbn [count_occ].
    repeat (destruct (ascii_dec _ _) as [?|_]; [discriminate|]). done.
  - intros t r IH. unfold underscores in *. cbn [count_occ].
    repeat (destruct (ascii_dec _ _) as [?|_]; [discriminate|]). done.
  - intros c t r IH. unfold underscores in *. cbn [count_occ].
    destruct (ascii_dec (lowerChar c) "_") as [H|H], (ascii_dec c "_") as [H'|H'];
      rewrite IH; try done.
    + by apply (proj1 (lower_underscore c)) in H.
    + subst c. by vm_compute in H.
Qed.

Lemma underscores_join s : underscores (joinDash (wordRuns s)) = underscores s.
Proof.
  unfold underscores. induction s as [|c t IH]; [done|].
  destruct (isWordChar c) eqn:Hc.
  - rewrite joinDash_word_step by done. cbn [count_occ].
    destruct (leadingDash t); cbn [count_occ];
      destruct (ascii_dec c "_"); rewrite <- IH; done.
  - rewrite wordRuns_nonword by done. cbn [count_occ].
    destruct (ascii_dec c "_") as [->|]; [by vm_compute in Hc|done].
Qed.

End GidProperties.


(** C9. [gidFrom] is defined on every string; its result is ["gid-"] followed
    by characters of [[a-z0-9_-]] only; it is exactly ["gid-"] for the empty
    string and for every string whose lower-cased form has non-word
    characters only; and the result has as many underscores as the input. *)
Theorem gidFrom_shape :
  (∀ raw : string, ∃ rest : list ascii,
      list_ascii_of_string (Gid.gidFrom raw) = list_ascii_of_string "gid-" ++ rest
      ∧ forallb Gid.isSlugChar rest = true)
  ∧ Gid.gidFrom "" = "gid-"
  ∧ (∀ raw : string,
      forallb Gid.isNonWordChar (Gid.toLowerCase (list_ascii_of_string raw))
      = true →
      Gid.gidFrom raw = "gid-")
  ∧ (∀ raw : string,
      Gid.underscores (list_ascii_of_string (Gid.gidFrom raw))
      = Gid.underscores (list_ascii_of_string raw)).
Proof.
  split_and!.
  - intros raw. eexists. rewrite gidFrom_units, gidFromUnits_wordRuns.
    split; [done|]. apply join_slug.
  - reflexivity.
  - intros raw Hraw. unfold Gid.gidFrom. rewrite gidFromUnits_wordRuns.
    apply wordRuns_nil in Hraw. by rewrite Hraw.
  - intros raw. rewrite gidFrom_units, gidFromUnits_wordRuns.
    change (list_ascii_of_string "gid-" ++ ?l)
      with ("g" :: "i" :: "d" :: "-" :: l)%char.
    unfold Gid.underscores at 1. cbn [count_occ].
    repeat (destruct (ascii_dec _ _) as [?|_]; [discriminate|]).
    fold (Gid.underscores
            (Gid.joinDash (Gid.wordRuns (Gid.toLowerCase (list_ascii_of_string raw))))).
    by rewrite underscores_join, underscores_lower.
Qed.

Lemma gidFrom_shape_witness :
  forallb Gid.isNonWordChar (Gid.toLowerCase (list_ascii_of_string "&: (!)"))
  = true
  ∧ Gid.gidFrom "&: (!)" = "gid-".
Proof.
  split; [reflexivity|].
  apply (proj1 (proj2 (proj2 gidFrom_shape))). reflexivity.
Defined.

(** C9, the strings of non-word characters. The Kelvin sign is not a word
    character, and its lower case is the letter [k]: its id is ["gid-k"]. *)
Lemma gidFrom_kelvin_sign :
  ¬ (forallb Gid.isNonWordChar (list_ascii_of_string kelvinSign) = true →
     Gid.gidFrom kelvinSign = "gid-").
Proof.
  intros Hclaim.
  assert (Gid.gidFrom kelvinSign = "gid-k") as Hk by reflexivity.
  rewrite Hk in Hclaim. by specialize (Hclaim eq_refl).
Qed.

(** ** The relationship vocabulary *)

Lemma isValid_elem k : isValid k = true ↔ k ∈ VALID_RELATIONSHIPS.
Proof. unfold isValid. apply bool_decide_eq_true. Qed.

Lemma isValid_cases k :
  isValid k = true →
  k = "COMPLETE_100" ∨ k = "BEATEN" ∨ k = "SET_ASIDE_ENJOYED" ∨ k = "SET_ASIDE"
  ∨ k = "GOT_BORED" ∨ k = "WOULD_NOT_LIKE".
Proof.
  rewrite isValid_elem. unfold VALID_RELATIONSHIPS.
  rewrite !elem_of_union, !elem_of_singleton. tauto.
Qed.

(** The table has a distance for every kind of the vocabulary. *)
Lemma isValid_distanceOf k : isValid k = true → is_Some (distanceOf k).
Proof.
  intros Hk. destruct (isValid_cases k Hk) as [->|[->|[->|[->|[->| ->]]]]];
    by eexists.
Qed.

(** C4. The six kinds are valid and have the distances 1, 2, 3, 5, 8 and 13;
    every other string, a case variant of a kind included, is not valid (and
    has no distance). *)
Theorem vocabulary_table :
  (isValid "COMPLETE_100" = true ∧ distanceOf "COMPLETE_100" = Some 1%Z)
  ∧ (isValid "BEATEN" = true ∧ distanceOf "BEATEN" = Some 2%Z)
  ∧ (isValid "SET_ASIDE_ENJOYED" = true ∧ distanceOf "SET_ASIDE_ENJOYED" = Some 3%Z)
  ∧ (isValid "SET_ASIDE" = true ∧ distanceOf "SET_ASIDE" = Some 5%Z)
  ∧ (isValid "GOT_BORED" = true ∧ distanceOf "GOT_BORED" = Some 8%Z)
  ∧ (isValid "WOULD_NOT_LIKE" = true ∧ distanceOf "WOULD_NOT_LIKE" = Some 13%Z)
  ∧ (∀ k : string,
       k ≠ "COMPLETE_100" → k ≠ "BEATEN" → k ≠ "SET_ASIDE_ENJOYED" →
       k ≠ "SET_ASIDE" → k ≠ "GOT_BORED" → k ≠ "WOULD_NOT_LIKE" →
       isValid k = false ∧ distanceOf k = None)
  ∧ isValid "complete_100" = false ∧ isValid "Beaten" = false
  ∧ isValid "set_aside" = false.
Proof.
  split_and!; try reflexivity.
  intros k H1 H2 H3 H4 H5 H6. split.
  - apply not_true_is_false. intros Hk%isValid_cases. tauto.
  - unfold distanceOf, RELATIONSHIP_DISTANCES. cbn [list_to_map foldr].
    cbn [fst snd curry]. by rewrite !lookup_insert_ne, lookup_empty.
Qed.

Lemma vocabulary_table_witness :
  isValid "WOULD_LIKE" = false ∧ distanceOf "WOULD_LIKE" = None.
Proof.
  apply (proj1 (proj2 (proj2 (proj2 (proj2 (proj2 (proj2 vocabulary_table)))))));
    discriminate.
Defined.

(** ** The write path *)

Section WritePath.

Implicit Types (G : Graph) (st : Store) (r : Rel).

Lemma mergeRelationship_rels u g k d G :
  g_rels (mergeRelationship u g k d G) = g_rels G
  ∨ ((mkRel u k d g ∉ g_rels G)
     ∧ g_rels (mergeRelationship u g k d G) = g_rels G ++ [mkRel u k d g]).
Proof.
  unfold mergeRelationship.
  destruct (g_users G !! u), (g_games G !! g); auto.
  case_decide; auto.
Qed.

Lemma mergeRelationship_nodes u g k d G :
  g_users (mergeRelationship u g k d G) = g_users G
  ∧ g_games (mergeRelationship u g k d G) = g_games G.
Proof.
  unfold mergeRelationship.
  destruct (g_users G !! u), (g_games G !! g); auto.
  case_decide; auto.
Qed.

(** With both nodes in the graph the relationship is there afterwards. *)
Lemma mergeRelationship_elem u g k d G :
  is_Some (g_users G !! u) → is_Some (g_games G !! g) →
  mkRel u k d g ∈ g_rels (mergeRelationship u g k d G).
Proof.
  intros [? Hu] [? Hg]. unfold mergeRelationship. rewrite Hu, Hg.
  case_decide; [done|]. cbn. apply elem_of_app. right. left.
Qed.

Lemma mergeRelationship_prefix u g k d G :
  g_rels G `prefix_of` g_rels (mergeRelationship u g k d G).
Proof.
  destruct (mergeRelationship_rels u g k d G) as [->|[_ ->]];
    [done|by apply prefix_app_r].
Qed.

(** A relationship that is there is merged into itself. *)
Lemma mergeRelationship_present u g k d G :
  mkRel u k d g ∈ g_rels G → mergeRelationship u g k d G = G.
Proof.
  intros Hin. unfold mergeRelationship.
  destruct (g_users G !! u), (g_games G !! g); try done.
  by rewrite decide_True.
Qed.

Lemma mergeRelationship_idemp u g k d G :
  mergeRelationship u g k d (mergeRelationship u g k d G)
  = mergeRelationship u g k d G.
Proof.
  destruct (g_users G !! u) as [nu|] eqn:Hu, (g_games G !! g) as [ng|] eqn:Hg.
  - apply mergeRelationship_present, mergeRelationship_elem; by eexists.
  - unfold mergeRelationship. by rewrite Hu, Hg, Hu, Hg.
  - unfold mergeRelationship. by rewrite Hu, Hu.
  - unfold mergeRelationship. by rewrite Hu, Hu.
Qed.

(** The two invariants of the graph are kept together: a relationship of the
    kind between the pair that is already there has the distance of the
    kind, so [MERGE] finds it. *)
Lemma mergeRelationship_invariant u g k d G :
  distanceOf k = Some d →
  oneEdgePerKind G ∧ canonicalDistances G →
  oneEdgePerKind (mergeRelationship u g k d G)
  ∧ canonicalDistances (mergeRelationship u g k d G).
Proof.
  intros Hd [Hone Hcan]. unfold oneEdgePerKind, canonicalDistances in *.
  destruct (mergeRelationship_rels u g k d G) as [->|[Hnew ->]]; [done|].
  split.
  - rewrite fmap_app. apply NoDup_app. split_and!; [done| |apply NoDup_singleton].
    intros key (r & -> & Hr)%list_elem_of_fmap Hkey.
    apply list_elem_of_singleton in Hkey. apply Hnew.
    rewrite Forall_forall in Hcan. specialize (Hcan r Hr).
    destruct r as [rf rt rd rto]. unfold relKey in Hkey.
    cbn [rel_from rel_to rel_type rel_dist] in Hkey, Hcan.
    injection Hkey as -> -> ->. rewrite Hd in Hcan. by injection Hcan as ->.
  - apply Forall_app. split; [done|]. by apply Forall_singleton.
Qed.

(** What [upsertEdge] does with non-empty identifiers and a valid kind. *)
Lemma upsertEdge_valid u g k st :
  u ≠ "" → g ≠ "" → isValid k = true →
  ∃ d, distanceOf k = Some d
       ∧ upsertEdge u g k st
         = (SendStatus 200,
            mkStore (mergeRelationship u g k d (graph st))
                    (issued st ++ [MergeRelationship u g k d])).
Proof.
  intros Hu Hg Hk. destruct (isValid_distanceOf k Hk) as [d Hd].
  exists d. split; [done|]. unfold upsertEdge, upsertEdgeRun.
  rewrite !decide_False, Hk, Hd by done. done.
Qed.

(** Every call either leaves the graph alone or merges the relationship
    with the distance of its kind. *)
Lemma upsertEdge_graph u g k st :
  graph (upsertEdge u g k st).2 = graph st
  ∨ ∃ d, distanceOf k = Some d
         ∧ graph (upsertEdge u g k st).2 = mergeRelationship u g k d (graph st).
Proof.
  unfold upsertEdge, upsertEdgeRun. repeat case_decide; auto.
  destruct (isValid k); cbn; auto.
  destruct (distanceOf k) as [d|]; cbn; eauto.
Qed.

Lemma getGame_graph gameId st : graph (getGame gameId st).2 = graph st.
Proof. unfold getGame, getGameRun. by case_decide. Qed.

(** A rejected statement leaves the graph as it was. *)
Lemma upsertEdgeRun_graph run u g k st :
  graph (upsertEdgeRun run u g k st).2 = graph st
  ∨ graph (upsertEdgeRun run u g k st).2 = graph (upsertEdge u g k st).2.
Proof.
  destruct run as [|message]; [by right|]. left.
  unfold upsertEdgeRun. repeat case_decide; try done.
  destruct (isValid k); cbn [negb]; [|done]. by destruct (distanceOf k).
Qed.

Lemma getGameRun_graph run gameId st :
  graph (getGameRun run gameId st).2 = graph st.
Proof. unfold getGameRun. by case_decide. Qed.

Lemma reachable_invariant st :
  reachable st → oneEdgePerKind (graph st) ∧ canonicalDistances (graph st).
Proof.
  induction 1 as [st Hnil|st run u g k _ IH|st run gameId _ IH].
  - unfold oneEdgePerKind, canonicalDistances. rewrite Hnil.
    split; [apply NoDup_nil_2|apply Forall_nil_2].
  - destruct (upsertEdgeRun_graph run u g k st) as [->| ->]; [done|].
    destruct (upsertEdge_graph u g k st) as [->|(d & Hd & ->)]; [done|].
    by apply mergeRelationship_invariant.
  - by rewrite getGameRun_graph.
Qed.

End WritePath.

(** C5. Calling [upsertEdge] a second time with the same user, game and valid
    kind leaves the graph as the first call left it, and is answered as the
    first call was. *)
Theorem upsertEdge_idempotent (u g k : string) (st : Store) :
  isValid k = true →
  graph (upsertEdge u g k (upsertEdge u g k st).2).2
  = graph (upsertEdge u g k st).2
  ∧ (upsertEdge u g k (upsertEdge u g k st).2).1 = (upsertEdge u g k st).1.
Proof.
  intros Hk. destruct (decide (u = "")) as [Hu|Hu].
  { unfold upsertEdge, upsertEdgeRun. by rewrite !decide_True. }
  destruct (decide (g = "")) as [Hg|Hg].
  { unfold upsertEdge, upsertEdgeRun. by rewrite !(decide_False (P := u = "")), !decide_True. }
  destruct (upsertEdge_valid u g k st Hu Hg Hk) as (d & Hd & ->).
  cbn [fst snd].
  destruct (upsertEdge_valid u g k
              (mkStore (mergeRelationship u g k d (graph st))
                       (issued st ++ [MergeRelationship u g k d])) Hu Hg Hk)
    as (d' & Hd' & ->).
  cbn. assert (d' = d) as -> by congruence.
  by rewrite mergeRelationship_idemp.
Qed.

Lemma upsertEdge_idempotent_witness :
  let st1 := (upsertEdge "A" "G2" "BEATEN" (mkStore scenarioGraph [])).2 in
  isValid "BEATEN" = true
  ∧ g_rels (graph st1) = g_rels scenarioGraph ++ [mkRel "A" "BEATEN" 2 "G2"]
  ∧ graph (upsertEdge "A" "G2" "BEATEN" st1).2 = graph st1.
Proof.
  split; [reflexivity|]. split; [vm_compute; reflexivity|].
  apply (upsertEdge_idempotent "A" "G2" "BEATEN" (mkStore scenarioGraph [])).
  reflexivity.
Defined.

(** C7. A kind outside the vocabulary is answered with status 400 (for
    non-empty identifiers with the message naming the kind); the store is
    left as it was: the graph is unchanged and no statement is issued. *)
Theorem upsertEdge_invalid_kind (u g k : string) (st : Store) :
  isValid k = false →
  (upsertEdge u g k st).2 = st
  ∧ (∃ msg, (upsertEdge u g k st).1 = Json 400 (Message msg))
  ∧ (u ≠ "" → g ≠ "" →
     (upsertEdge u g k st).1 = Json 400 (Message ("Invalid relationship: " ++ k))).
Proof.
  intros Hk. unfold upsertEdge, upsertEdgeRun. rewrite Hk. cbn [negb].
  repeat case_decide; cbn [fst snd]; split_and!; eauto; done.
Qed.

Lemma upsertEdge_invalid_kind_witness :
  isValid "LOVED" = false
  ∧ upsertEdge "A" "G2" "LOVED" (mkStore scenarioGraph [])
    = (Json 400 (Message "Invalid relationship: LOVED"), mkStore scenarioGraph []).
Proof.
  split; [reflexivity|].
  destruct (upsertEdge_invalid_kind "A" "G2" "LOVED" (mkStore scenarioGraph []))
    as (Hst & _ & Hresp); [reflexivity|].
  rewrite (surjective_pairing (upsertEdge _ _ _ _)), Hst, Hresp; done.
Defined.

Lemma edgesOf_elem G u r :
  r ∈ g_rels G → rel_from r = u → (rel_to r, rel_type r, rel_dist r) ∈ edgesOf G u.
Proof.
  intros Hr Hu. unfold edgesOf.
  apply (list_elem_of_fmap_2 (λ r, (rel_to r, rel_type r, rel_dist r))).
  by apply list_elem_of_filter.
Qed.

Lemma between_nil_not_elem G u g k d :
  between G u g = [] → mkRel u k d g ∉ g_rels G.
Proof.
  intros Hnil Hin.
  assert (mkRel u k d g ∈ between G u g) as Hb
    by (unfold between; by apply list_elem_of_filter).
  rewrite Hnil in Hb. by apply not_elem_of_nil in Hb.
Qed.

(** C6. After [upsertEdge(u, g, k)] and [upsertEdge(u, g, k')] with two
    different valid kinds, for a user and a game of the graph, both
    relationships are among the edges of [u]; the second call keeps every
    relationship the first one left; if [u] and [g] were not linked before,
    exactly these two relationships link them afterwards. And no state the
    store reaches has two relationships of one kind between the same user and
    game. *)
Theorem upsertEdge_second_kind :
  (∀ (u g k k' : string) (st : Store),
     u ≠ "" → g ≠ "" →
     is_Some (g_users (graph st) !! u) → is_Some (g_games (graph st) !! g) →
     isValid k = true → isValid k' = true → k' ≠ k →
     let st1 := (upsertEdge u g k st).2 in
     let st2 := (upsertEdge u g k' st1).2 in
     ∃ d d' : Z,
       distanceOf k = Some d ∧ distanceOf k' = Some d'
       ∧ (g, k, d) ∈ edgesOf (graph st2) u
       ∧ (g, k', d') ∈ edgesOf (graph st2) u
       ∧ g_rels (graph st1) `prefix_of` g_rels (graph st2)
       ∧ (between (graph st) u g = [] →
          between (graph st2) u g = [mkRel u k d g; mkRel u k' d' g]))
  ∧ (∀ st : Store, reachable st → oneEdgePerKind (graph st)).
Proof.
  split; [|intros st Hst; by apply reachable_invariant].
  intros u g k k' st Hu Hg Hnu Hng Hk Hk' Hne st1 st2.
  destruct (upsertEdge_valid u g k st Hu Hg Hk) as (d & Hd & Hst1).
  destruct (upsertEdge_valid u g k' st1 Hu Hg Hk') as (d' & Hd' & Hst2).
  assert (graph st1 = mergeRelationship u g k d (graph st)) as Hg1
    by (subst st1; by rewrite Hst1).
  assert (graph st2 = mergeRelationship u g k' d' (graph st1)) as Hg2
    by (subst st2; by rewrite Hst2).
  clearbody st1 st2. clear Hst1 Hst2.
  destruct (mergeRelationship_nodes u g k d (graph st)) as [Hus Hgs].
  assert (mkRel u k d g ∈ g_rels (graph st1)) as Hin1
    by (rewrite Hg1; by apply mergeRelationship_elem).
  assert (g_rels (graph st1) `prefix_of` g_rels (graph st2)) as Hpre
    by (rewrite Hg2; apply mergeRelationship_prefix).
  assert (mkRel u k' d' g ∈ g_rels (graph st2)) as Hin2.
  { rewrite Hg2. apply mergeRelationship_elem; rewrite Hg1; congruence. }
  exists d, d'. split_and!; try done.
  - apply (edgesOf_elem _ u (mkRel u k d g)); [|done].
    destruct Hpre as [new ->]. apply elem_of_app. by left.
  - by apply (edgesOf_elem _ u (mkRel u k' d' g)).
  - intros Hnil.
    assert (g_rels (graph st1) = g_rels (graph st) ++ [mkRel u k d g]) as Hr1.
    { rewrite Hg1.
      destruct (mergeRelationship_rels u g k d (graph st)) as [Hsame|[_ ->]];
        [|done].
      exfalso. apply (between_nil_not_elem _ _ _ k d Hnil).
      rewrite <- Hsame, <- Hg1. done. }
    assert (g_rels (graph st2) = g_rels (graph st1) ++ [mkRel u k' d' g]) as Hr2.
    { rewrite Hg2.
      destruct (mergeRelationship_rels u g k' d' (graph st1)) as [Hsame|[_ ->]];
        [|done].
      exfalso. rewrite Hg2, Hsame, Hr1 in Hin2.
      apply elem_of_app in Hin2 as [Hin2|Hin2].
      - by apply (between_nil_not_elem _ _ _ k' d' Hnil).
      - apply list_elem_of_singleton in Hin2. congruence. }
    unfold between in *. rewrite Hr2, Hr1, !filter_app, Hnil.
    rewrite !filter_cons_True by done. done.
Qed.

Lemma upsertEdge_second_kind_witness :
  let st := mkStore nodesOnlyGraph [] in
  let st2 := (upsertEdge "A" "G1" "SET_ASIDE" (upsertEdge "A" "G1" "BEATEN" st).2).2 in
  (("G1", "BEATEN", 2%Z) ∈ edgesOf (graph st2) "A"
   ∧ ("G1", "SET_ASIDE", 5%Z) ∈ edgesOf (graph st2) "A"
   ∧ between (graph st2) "A" "G1"
     = [mkRel "A" "BEATEN" 2 "G1"; mkRel "A" "SET_ASIDE" 5 "G1"])
  ∧ oneEdgePerKind (graph st2).
Proof.
  intros st st2. split.
  - destruct (proj1 upsertEdge_second_kind "A" "G1" "BEATEN" "SET_ASIDE" st)
      as (d & d' & Hd & Hd' & H1 & H2 & _ & Hb);
      [discriminate|discriminate|by eexists|by eexists|reflexivity|reflexivity
      |discriminate|].
    injection Hd as <-. injection Hd' as <-.
    split_and!; [exact H1|exact H2|apply Hb; reflexivity].
  - apply (proj2 upsertEdge_second_kind).
    do 2 apply reachable_upsert. by apply reachable_init.
Defined.

(** ** GET /games/:gameId *)

Lemma matchGameUsers_elem G gameId record :
  record ∈ matchGameUsers G gameId →
  ∃ r, r ∈ g_rels G ∧ rel_to r = gameId
       ∧ is_Some (g_games G !! gameId) ∧ is_Some (g_users G !! rel_from r)
       ∧ gur_relationship record = rel_type r
       ∧ user_id (gur_user record) = rel_from r
       ∧ game_id (gur_game record) = gameId.
Proof.
  unfold matchGameUsers. destruct (g_games G !! gameId) as [gname|] eqn:Hg.
  - intros (r & Hr & Hsome)%list_elem_of_omap. exists r.
    case_decide as Hto; [|done].
    destruct (g_users G !! rel_from r) as [uname|] eqn:Hu; [|done].
    cbn in Hsome. injection Hsome as <-. cbn. split_and!; eauto.
  - intros []%not_elem_of_nil.
Qed.

(** C10. When the statement of GET /games/:gameId yields no record (no such
    game, or no relationship into it), [records[0]] is undefined and the
    handler answers with an error: status 500 and the message of the
    [TypeError] (status 400 for an empty id). An answer with the game always
    lists at least one user, and the graph has a relationship into the
    game. *)
Theorem getGame_no_records :
  (∀ (G : Graph) (gameId : string),
     g_games G !! gameId = None ∨ (∀ r, r ∈ g_rels G → rel_to r ≠ gameId) →
     matchGameUsers G gameId = [])
  ∧ (∀ (gameId : string) (st : Store),
       matchGameUsers (graph st) gameId = [] →
       (∃ (status : Z) (msg : string),
          (getGame gameId st).1 = Json status (Message msg) ∧ (400 ≤ status)%Z)
       ∧ (gameId ≠ "" →
          (getGame gameId st).1 = Json 500 (Message undefinedGetMessage)))
  ∧ (∀ (gameId : string) (st : Store) (game : Game)
       (users : list UserWithRelationship),
       (getGame gameId st).1 = Json 200 (GameAndUsers game users) →
       users ≠ []
       ∧ ∃ r, r ∈ g_rels (graph st) ∧ rel_to r = gameId
              ∧ is_Some (g_users (graph st) !! rel_from r)).
Proof.
  split_and!.
  - intros G gameId Hnone.
    destruct (matchGameUsers G gameId) as [|record records] eqn:Hm; [done|].
    destruct (matchGameUsers_elem G gameId record) as (r & Hr & Hto & Hg & _).
    { rewrite Hm. left. }
    destruct Hnone as [Hnone|Hnone].
    + rewrite Hnone in Hg. by destruct Hg.
    + by destruct (Hnone r Hr).
  - intros gameId st Hm. unfold getGame, getGameRun. case_decide; cbn [fst].
    + split; [by eexists _, _|done].
    + rewrite Hm. cbn. split; [by eexists _, _|done].
  - intros gameId st game users. unfold getGame, getGameRun. case_decide; cbn [fst]; [done|].
    unfold getGameResponse.
    destruct (matchGameUsers (graph st) gameId) as [|record records] eqn:Hm;
      [done|].
    cbn. intros [= <- <-]. split; [done|].
    destruct (matchGameUsers_elem (graph st) gameId record)
      as (r & Hr & Hto & _ & Hu & _); [rewrite Hm; left|].
    eauto.
Qed.

Lemma getGame_no_records_witness :
  matchGameUsers scenarioGraph "G3" = []
  ∧ matchGameUsers nodesOnlyGraph "G1" = []
  ∧ (getGame "G1" (mkStore nodesOnlyGraph [])).1
    = Json 500 (Message undefinedGetMessage).
Proof.
  destruct getGame_no_records as (Hempty & Herr & _). split_and!.
  - apply Hempty. left. reflexivity.
  - apply Hempty. right. intros r Hr. by apply not_elem_of_nil in Hr.
  - apply Herr; [|discriminate].
    apply Hempty. right. intros r Hr. by apply not_elem_of_nil in Hr.
Defined.

(** ** The recommendations statement *)

(** *** Grouping and aggregation *)

Section Aggregation.
Context {A K : Type} `{EqDecision K}.
Implicit Types (key : A → K) (rows : list A) (k : K).

Lemma elem_of_distinctFrom (seen keys : list K) k :
  k ∈ distinctFrom seen keys ↔ k ∈ keys ∧ k ∉ seen.
Proof.
  revert seen. induction keys as [|k0 t IH]; intros seen; cbn [distinctFrom].
  - split; [by intros ?%not_elem_of_nil|by intros [?%not_elem_of_nil _]].
  - case_decide as Hk0.
    + rewrite IH, elem_of_cons. split; [tauto|].
      intros [[->|?] ?]; [done|tauto].
    + rewrite elem_of_cons, IH, not_elem_of_cons, elem_of_cons.
      destruct (decide (k = k0)) as [->|Hne]; tauto.
Qed.

Lemma NoDup_distinctFrom (seen keys : list K) : NoDup (distinctFrom seen keys).
Proof.
  revert seen. induction keys as [|k0 t IH]; intros seen; cbn [distinctFrom].
  - apply NoDup_nil_2.
  - case_decide; [done|]. apply NoDup_cons. split; [|done].
    rewrite elem_of_distinctFrom, not_elem_of_cons. tauto.
Qed.

Lemma elem_of_distinct (keys : list K) k : k ∈ distinct keys ↔ k ∈ keys.
Proof.
  unfold distinct. rewrite elem_of_distinctFrom. split; [tauto|].
  intros ?. split; [done|apply not_elem_of_nil].
Qed.

Lemma NoDup_distinct (keys : list K) : NoDup (distinct keys).
Proof. apply NoDup_distinctFrom. Qed.

(** The groups: one for each key that occurs, holding the rows of the key. *)
Lemma elem_of_groupBy key rows k (grp : list A) :
  (k, grp) ∈ groupBy key rows
  ↔ k ∈ key <$> rows ∧ grp = filter (λ r, key r = k) rows.
Proof.
  unfold groupBy. rewrite list_elem_of_fmap. setoid_rewrite elem_of_distinct.
  split.
  - intros (k' & [= -> ->] & Hk). done.
  - intros [Hk ->]. eauto.
Qed.

Lemma groupBy_nonempty key rows k (grp : list A) :
  (k, grp) ∈ groupBy key rows → grp ≠ [].
Proof.
  rewrite elem_of_groupBy. intros [(r & -> & Hr)%list_elem_of_fmap ->] Hnil.
  assert (r ∈ filter (λ r', key r' = key r) rows) as Hin
    by by apply list_elem_of_filter.
  rewrite Hnil in Hin. by apply not_elem_of_nil in Hin.
Qed.

End Aggregation.

Lemma filter_eq_NoDup {A} `{EqDecision A} (l : list A) (x : A) :
  NoDup l → x ∈ l → filter (λ y, y = x) l = [x].
Proof.
  induction 1 as [|y l Hy Hl IH]; [by intros ?%not_elem_of_nil|].
  intros [->|Hx]%elem_of_cons.
  - rewrite filter_cons_True by done. f_equal.
    clear IH Hl. induction l as [|z l IH]; [done|].
    apply not_elem_of_cons in Hy as [Hne Hy].
    rewrite filter_cons_False by done. auto.
  - rewrite filter_cons_False; [auto|]. intros ->. done.
Qed.

Lemma foldl_min_spec (x : Z) (t : list Z) :
  foldl Z.min x t ∈ x :: t ∧ ∀ y, y ∈ x :: t → (foldl Z.min x t ≤ y)%Z.
Proof.
  revert x. induction t as [|z t IH]; intros x; cbn [foldl].
  - split; [left|]. intros y ->%list_elem_of_singleton. done.
  - destruct (IH (Z.min x z)) as [Hin Hle]. split.
    + apply elem_of_cons in Hin as [->|Hin].
      * destruct (Z.min_spec x z) as [[_ ->]|[_ ->]]; [left|right; left].
      * right. by right.
    + intros y Hy.
      assert (foldl Z.min (x `min` z)%Z t ≤ x `min` z)%Z by (apply Hle; left).
      apply elem_of_cons in Hy as [->|[->|Hy]%elem_of_cons].
      * lia.
      * lia.
      * apply Hle. by right.
Qed.

(** [min] of a group is one of its values and below all of them. *)
Lemma minZ_spec (l : list Z) (m : Z) :
  minZ l = Some m → m ∈ l ∧ ∀ y, y ∈ l → (m ≤ y)%Z.
Proof.
  destruct l as [|x t]; [done|]. intros [= <-]. apply foldl_min_spec.
Qed.

Lemma minZ_is_Some (l : list Z) : l ≠ [] → is_Some (minZ l).
Proof. destruct l; [done|]. by eexists. Qed.

(** *** The matches of the pattern *)

Section Paths.

Implicit Types (G : Graph) (p : Path) (r : Rel).

Lemma elem_of_relationships G (i : nat) r :
  (i, r) ∈ relationships G ↔ g_rels G !! i = Some r.
Proof.
  unfold relationships. rewrite elem_of_lookup_imap. split.
  - by intros (j & y & [= -> ->] & Hy).
  - intros Hr. by exists i, r.
Qed.

Lemma relationships_rel G (ir : IRel) : ir ∈ relationships G → ir.2 ∈ g_rels G.
Proof.
  destruct ir as [i r]. rewrite elem_of_relationships.
  intros Hr. apply list_elem_of_lookup. by exists i.
Qed.

Lemma NoDup_relationships G : NoDup (relationships G).
Proof.
  apply (NoDup_fmap_1 fst). unfold relationships.
  rewrite fmap_imap.
  rewrite (imap_ext _ (λ j _, id j)) by done.
  rewrite imap_seq_0, list_fmap_id. apply NoDup_seq.
Qed.

Lemma elem_of_matchPaths G u p :
  p ∈ matchPaths G u
  ↔ p_b p ∈ relationships G ∧ p_d p ∈ relationships G
    ∧ p_f p ∈ relationships G ∧ matchesPattern u (p_b p) (p_d p) (p_f p).
Proof.
  unfold matchPaths. rewrite list_elem_of_bind. split.
  - intros (b & (d & (f & Hp & Hf)%list_elem_of_bind & Hd)%list_elem_of_bind & Hb).
    case_decide; [|by apply not_elem_of_nil in Hp].
    apply list_elem_of_singleton in Hp as ->. done.
  - intros (Hb & Hd & Hf & Hm). destruct p as [b d f]. cbn in *.
    exists b. split; [|done]. apply list_elem_of_bind.
    exists d. split; [|done]. apply list_elem_of_bind.
    exists f. split; [|done]. rewrite decide_True by done. left.
Qed.

Lemma NoDup_matchPaths G u : NoDup (matchPaths G u).
Proof.
  unfold matchPaths.
  assert (∀ b d f p,
    p ∈ (if decide (matchesPattern u b d f) then [mkPath b d f] else []) →
    p = mkPath b d f) as Hinner.
  { intros b d f p. case_decide; [|by intros ?%not_elem_of_nil].
    by intros ->%list_elem_of_singleton. }
  assert (∀ b d p,
    p ∈ (relationships G ≫= λ f,
           if decide (matchesPattern u b d f) then [mkPath b d f] else []) →
    p_b p = b ∧ p_d p = d) as Hmid.
  { intros b d p (f & Hp%Hinner & _)%list_elem_of_bind. by subst. }
  apply NoDup_bind; [| |apply NoDup_relationships].
  - intros b1 b2 p _ _ (d1 & [<- _]%Hmid & _)%list_elem_of_bind
      (d2 & [<- _]%Hmid & _)%list_elem_of_bind. done.
  - intros b _. apply NoDup_bind; [| |apply NoDup_relationships].
    + intros d1 d2 p _ _ [_ <-]%Hmid [_ <-]%Hmid. done.
    + intros d _. apply NoDup_bind; [| |apply NoDup_relationships].
      * intros f1 f2 p _ _ Hp1%Hinner Hp2%Hinner. congruence.
      * intros f _. case_decide; [apply NoDup_singleton|apply NoDup_nil_2].
Qed.

(** With every variable a grouping key, [sum] is over the one row. *)
Lemma elem_of_withDist (paths : list Path) (s : Z) p :
  NoDup paths →
  (s, p) ∈ withDist paths ↔ p ∈ paths ∧ s = pathCost p.
Proof.
  intros Hnd. unfold withDist. rewrite list_elem_of_fmap. split.
  - intros ([p' grp] & [= -> ->] & [Hp ->]%elem_of_groupBy).
    rewrite list_fmap_id in Hp. split; [done|].
    cbn [snd]. change (λ r : Path, id r = p') with (λ r : Path, r = p').
    rewrite filter_eq_NoDup by done. cbn. lia.
  - intros [Hp ->]. exists (p, [p]). split.
    + cbn. f_equal. lia.
    + apply elem_of_groupBy. rewrite list_fmap_id. split; [done|].
      change (λ r : Path, id r = p) with (λ r : Path, r = p).
      by rewrite filter_eq_NoDup.
Qed.

Lemma elem_of_scoredPaths G u (s : Z) p :
  (s, p) ∈ scoredPaths G u
  ↔ p ∈ matchPaths G u ∧ whereClause G p ∧ s = pathCost p.
Proof.
  unfold scoredPaths.
  rewrite elem_of_withDist by apply NoDup_filter, NoDup_matchPaths.
  rewrite list_elem_of_filter. tauto.
Qed.

End Paths.

(** *** Qualifying paths and the rows of the statement *)

Section Recommend.

Implicit Types (G : Graph) (p : Path) (c : Candidate).

(** A row is a qualifying path with its cost. *)
Lemma scoredPaths_qualifying G u (s : Z) p :
  (s, p) ∈ scoredPaths G u →
  qualifying G u (p_b p).2 (p_d p).2 (p_f p).2
  ∧ s = costOf (p_b p).2 (p_d p).2 (p_f p).2.
Proof.
  rewrite elem_of_scoredPaths, elem_of_matchPaths.
  intros ((Hb & Hd & Hf & Hm) & [Hnc Hdist] & ->).
  destruct Hm as (Hu & Hc & He & _). unfold node_a, node_g in Hnc.
  rewrite Hu in Hnc.
  split; [|done]. unfold qualifying.
  split_and!; try done; by apply relationships_rel.
Qed.

(** A qualifying path is a row: its three relationships are pairwise
    different, since [u] is connected to the game of the first but not to
    that of the third. *)
Lemma qualifying_scoredPaths G u (e1 e2 e3 : Rel) :
  qualifying G u e1 e2 e3 →
  ∃ p, (costOf e1 e2 e3, p) ∈ scoredPaths G u
       ∧ (p_b p).2 = e1 ∧ (p_d p).2 = e2 ∧ (p_f p).2 = e3.
Proof.
  intros (H1 & H2 & H3 & Hu & Hc & He & Hdist & Hnc).
  apply list_elem_of_lookup in H1 as [i Hi].
  apply list_elem_of_lookup in H2 as [j Hj].
  apply list_elem_of_lookup in H3 as [k Hk].
  assert (∀ r, r ∈ g_rels G → rel_from r = u → rel_to r ≠ rel_to e3) as Hfree.
  { intros r Hr Hfrom Hto. apply Hnc. unfold connected.
    apply Exists_exists. by exists r. }
  assert (e1 ∈ g_rels G) as Hin1 by (apply list_elem_of_lookup; eauto).
  assert (e3 ∈ g_rels G) as Hin3 by (apply list_elem_of_lookup; eauto).
  exists (mkPath (i, e1) (j, e2) (k, e3)). split; [|done].
  apply elem_of_scoredPaths. split_and!.
  - apply elem_of_matchPaths. cbn [p_b p_d p_f].
    rewrite !elem_of_relationships. split_and!; try done.
    unfold matchesPattern. cbn [fst snd]. split_and!; try done.
    + intros ->. assert (e1 = e2) as <- by congruence.
      apply (Hfree e3 Hin3); congruence.
    + intros ->. assert (e2 = e3) as <- by congruence.
      apply (Hfree e1 Hin1); congruence.
    + intros ->. assert (e1 = e3) as <- by congruence.
      by apply (Hfree e1 Hin1).
  - unfold whereClause, node_a, node_g. cbn [p_b p_d p_f snd].
    rewrite Hu. done.
  - done.
Qed.

(** The other user of a qualifying path is not [u]. *)
Lemma qualifying_other_user G u (e1 e2 e3 : Rel) :
  qualifying G u e1 e2 e3 → rel_from e2 ≠ u.
Proof.
  intros (_ & _ & H3 & _ & _ & He & _ & Hnc) Hv. apply Hnc.
  apply Exists_exists. exists e3.
  split; [done|]. split; [congruence|done].
Qed.

Lemma elem_of_returnRows (rows : list (Z * Path)) c :
  c ∈ returnRows rows
  ↔ rec c ∈ (λ row, node_g row.2) <$> rows
    ∧ candidateOf (rec c) (filter (λ row, node_g row.2 = rec c) rows) = Some c.
Proof.
  unfold returnRows. rewrite elem_of_distinct, list_elem_of_omap. split.
  - intros ([g grp] & [Hg ->]%elem_of_groupBy & Hc). cbn [fst snd] in Hc.
    assert (rec c = g) as ->; [|done].
    unfold candidateOf in Hc.
    destruct (minZ (_ <$> _)); [|done]. cbn in Hc. by injection Hc as <-.
  - intros [Hg Hc]. eexists (rec c, _). split; [|exact Hc].
    by apply elem_of_groupBy.
Qed.

Lemma elem_of_recommend G u c :
  c ∈ recommend G u ↔ c ∈ returnRows (scoredPaths G u).
Proof. unfold recommend, orderByDist. by rewrite merge_sort_Permutation. Qed.

End Recommend.

#[local] Instance byDist_total : Total byDist.
Proof. intros c1 c2. unfold byDist. lia. Qed.

#[local] Instance byDist_transitive : Transitive byDist.
Proof. intros c1 c2 c3. unfold byDist. lia. Qed.

(** One row for each target game. *)
Lemma recommend_rec_inj G u c1 c2 :
  c1 ∈ recommend G u → c2 ∈ recommend G u → rec c1 = rec c2 → c1 = c2.
Proof.
  rewrite !elem_of_recommend, !elem_of_returnRows.
  intros [_ H1] [_ H2] Heq. rewrite Heq in H1. congruence.
Qed.

Lemma recommend_NoDup_rec G u : NoDup (rec <$> recommend G u).
Proof.
  apply NoDup_fmap_2_strong.
  - intros c1 c2. apply recommend_rec_inj.
  - unfold recommend, orderByDist. rewrite merge_sort_Permutation.
    apply NoDup_distinct.
Qed.

(** C2. For a target game reached by a qualifying path, [recommend] has
    exactly one row; its score is the cost of one of the qualifying paths to
    the game and at most the cost of each of them. *)
Theorem recommend_min_cost (G : Graph) (u g' : string) :
  (∃ e1 e2 e3, qualifying G u e1 e2 e3 ∧ rel_to e3 = g') →
  NoDup (rec <$> recommend G u)
  ∧ ∃ c, c ∈ recommend G u ∧ rec c = g'
      ∧ (∀ c', c' ∈ recommend G u → rec c' = g' → c' = c)
      ∧ (∀ e1 e2 e3, qualifying G u e1 e2 e3 → rel_to e3 = g' →
           (mDist c ≤ costOf e1 e2 e3)%Z)
      ∧ (∃ e1 e2 e3, qualifying G u e1 e2 e3 ∧ rel_to e3 = g'
           ∧ mDist c = costOf e1 e2 e3).
Proof.
  intros (e1 & e2 & e3 & Hq & Hg'). split; [apply recommend_NoDup_rec|].
  destruct (qualifying_scoredPaths G u e1 e2 e3 Hq) as (p0 & Hp0 & _ & _ & Hf0).
  set (rows := scoredPaths G u) in *.
  set (grp := filter (λ row : Z * Path, node_g row.2 = g') rows).
  assert ((costOf e1 e2 e3, p0) ∈ grp) as Hgrp0.
  { apply list_elem_of_filter. split; [|done]. unfold node_g. cbn. congruence. }
  destruct (minZ_is_Some (fst <$> grp)) as [m Hm].
  { intros Hnil. apply fmap_nil_inv in Hnil. rewrite Hnil in Hgrp0.
    by apply not_elem_of_nil in Hgrp0. }
  set (c := mkCandidate m g'
              ((λ row : Z * Path, node_c row.2) <$> grp)
              ((λ row : Z * Path, rel_type (p_b row.2).2) <$> grp)
              ((λ row : Z * Path, rel_type (p_d row.2).2) <$> grp)).
  assert (c ∈ recommend G u) as Hc.
  { apply elem_of_recommend, elem_of_returnRows. cbn [rec c]. split.
    - apply list_elem_of_fmap. exists (costOf e1 e2 e3, p0). split.
      + unfold node_g. cbn. congruence.
      + by apply list_elem_of_filter in Hgrp0 as [_ ?].
    - unfold candidateOf. fold rows grp. by rewrite Hm. }
  destruct (minZ_spec _ _ Hm) as [Hin Hle].
  exists c. split_and!; [done|done| | |].
  - intros c' Hc' Hrec. by apply (recommend_rec_inj G u).
  - intros a1 a2 a3 Ha Hto.
    destruct (qualifying_scoredPaths G u a1 a2 a3 Ha) as (p & Hp & _ & _ & Hf).
    cbn [mDist c]. apply Hle. apply list_elem_of_fmap.
    exists (costOf a1 a2 a3, p). split; [done|].
    apply list_elem_of_filter. split; [|done]. unfold node_g. cbn. congruence.
  - apply list_elem_of_fmap in Hin as ([s p] & -> & Hsp).
    apply list_elem_of_filter in Hsp as [Hto Hsp].
    apply scoredPaths_qualifying in Hsp as [Hq' ->].
    exists (p_b p).2, (p_d p).2, (p_f p).2. done.
Qed.

Lemma recommend_min_cost_witness :
  ∃ c, c ∈ recommend twoPathGraph "A" ∧ rec c = "G2" ∧ mDist c = 4%Z
       ∧ (mDist c ≤ costOf (mkRel "A" "SET_ASIDE" 5 "G4")
                           (mkRel "C" "SET_ASIDE" 5 "G4")
                           (mkRel "C" "SET_ASIDE_ENJOYED" 3 "G2"))%Z.
Proof.
  assert (qualifying twoPathGraph "A" (mkRel "A" "SET_ASIDE" 5 "G4")
            (mkRel "C" "SET_ASIDE" 5 "G4")
            (mkRel "C" "SET_ASIDE_ENJOYED" 3 "G2")) as Hq
    by (unfold qualifying, connected; compute_done).
  destruct (recommend_min_cost twoPathGraph "A" "G2")
    as (_ & c & Hc & Hrec & _ & Hle & _); [by eexists _, _, _|].
  exists c. split_and!; [done|done| |by apply Hle].
  assert (recommend twoPathGraph "A"
          = [mkCandidate 4 "G2" ["G4"; "G1"] ["SET_ASIDE"; "COMPLETE_100"]
                         ["SET_ASIDE"; "COMPLETE_100"]]) as Heq
    by (vm_compute; reflexivity).
  rewrite Heq in Hc. by apply list_elem_of_singleton in Hc as ->.
Defined.

Lemma recommend_scenario_eval (users games : gmap string string) :
  recommend
    (mkGraph users games
       [ mkRel "A" "COMPLETE_100" 1 "G1";
         mkRel "B" "COMPLETE_100" 1 "G1";
         mkRel "B" "BEATEN" 2 "G2" ])
    "A"
  = [ mkCandidate 4 "G2" ["G1"] ["COMPLETE_100"] ["COMPLETE_100"] ].
Proof. vm_compute. reflexivity. Qed.

(** The evidence columns collect every row of the group of a target, the
    rows of costlier paths included: on [twoPathGraph] the row for [G2] has
    the minimum 4 of the path through [G1] and names [G4] as well. *)
Lemma recommend_collects_all_paths :
  recommend twoPathGraph "A"
  = [ mkCandidate 4 "G2" ["G4"; "G1"] ["SET_ASIDE"; "COMPLETE_100"]
                  ["SET_ASIDE"; "COMPLETE_100"] ].
Proof. vm_compute. reflexivity. Qed.

(** C1. On the scenario graph [recommend] returns one row, for [G2], with
    score [1 + 1 + 2 = 4] and the evidence [(G1, COMPLETE_100, COMPLETE_100)]:
    the shared game, the kind of [A]'s relationship to it and the kind of
    [B]'s relationship to it. This is the result for every graph with these
    three relationships, whatever its nodes. *)
Theorem recommend_scenario (users games : gmap string string) :
  recommend
    (mkGraph users games
       [ mkRel "A" "COMPLETE_100" 1 "G1";
         mkRel "B" "COMPLETE_100" 1 "G1";
         mkRel "B" "BEATEN" 2 "G2" ])
    "A"
  = [ mkCandidate 4 "G2" ["G1"] ["COMPLETE_100"] ["COMPLETE_100"] ].
Proof. apply recommend_scenario_eval. Qed.

(** C1, the evidence of the specification. The row for [G2] does not name
    [BEATEN], the kind of [B]'s relationship to the target: the statement
    collects [type(b)] and [type(d)], never [type(f)]. *)
Lemma recommend_scenario_no_target_kind :
  ¬ ∃ c, recommend scenarioGraph "A" = [c] ∧ rec c = "G2" ∧ mDist c = 4%Z
         ∧ "BEATEN" ∈ evidenceKinds c.
Proof.
  intros (c & Hc & _ & _ & Hkind).
  unfold scenarioGraph in Hc. rewrite recommend_scenario_eval in Hc.
  injection Hc as <-. revert Hkind. unfold evidenceKinds. cbn.
  rewrite !elem_of_cons. intros [?|[?|?%not_elem_of_nil]]; done.
Qed.

(** Later rows of a sorted list are not below earlier ones. *)
Lemma StronglySorted_lookup_le (l : list Candidate) (i j : nat) (c1 c2 : Candidate) :
  StronglySorted byDist l → (i < j)%nat →
  l !! i = Some c1 → l !! j = Some c2 → (mDist c1 ≤ mDist c2)%Z.
Proof.
  intros Hs. revert i j. induction Hs as [|x l _ IH Hall]; intros i j Hij Hi Hj.
  - done.
  - destruct j as [|j]; [lia|]. cbn in Hj. destruct i as [|i].
    + cbn in Hi. injection Hi as ->. rewrite Forall_forall in Hall.
      apply Hall. by eapply list_elem_of_lookup_2.
    + cbn in Hi. apply (IH i j); [lia|done|done].
Qed.

(** C3. The statement has a result, and every result it admits holds the
    same rows and is sorted by ascending score: a row that comes later has a
    score that is not smaller. *)
Theorem recommend_sorted (G : Graph) (u : string) :
  recommendResult G u (recommend G u)
  ∧ ∀ l, recommendResult G u l →
      (∀ c, c ∈ l ↔ c ∈ recommend G u)
      ∧ ∀ (i j : nat) (c1 c2 : Candidate),
          (i < j)%nat → l !! i = Some c1 → l !! j = Some c2 →
          (mDist c1 ≤ mDist c2)%Z.
Proof.
  assert (recommendResult G u (recommend G u)) as Hrec.
  { unfold recommendResult, orderedByDist, recommend, orderByDist. split.
    - apply merge_sort_Permutation.
    - apply Sorted_merge_sort; apply _. }
  split; [done|]. intros l [Hperm Hsorted]. split.
  - intros c. destruct Hrec as [Hperm' _]. by rewrite Hperm, Hperm'.
  - intros i j c1 c2. apply StronglySorted_lookup_le.
    apply Sorted_StronglySorted; [apply _|done].
Qed.

Lemma recommend_sorted_witness :
  recommendResult tieGraph "A"
    [ mkCandidate 4 "G2" ["G1"] ["COMPLETE_100"] ["COMPLETE_100"];
      mkCandidate 4 "G3" ["G1"] ["COMPLETE_100"] ["COMPLETE_100"] ]
  ∧ (4 ≤ 4)%Z.
Proof.
  assert (recommendResult tieGraph "A"
            [ mkCandidate 4 "G2" ["G1"] ["COMPLETE_100"] ["COMPLETE_100"];
              mkCandidate 4 "G3" ["G1"] ["COMPLETE_100"] ["COMPLETE_100"] ])
    as Hres.
  { unfold recommendResult, orderedByDist.
    assert (returnRows (scoredPaths tieGraph "A")
            = [ mkCandidate 4 "G3" ["G1"] ["COMPLETE_100"] ["COMPLETE_100"];
                mkCandidate 4 "G2" ["G1"] ["COMPLETE_100"] ["COMPLETE_100"] ])
      as -> by (vm_compute; reflexivity).
    split; [apply Permutation_swap|].
    repeat constructor; unfold byDist; cbn; lia. }
  split; [exact Hres|].
  destruct (proj2 (recommend_sorted tieGraph "A") _ Hres) as [_ Hle].
  apply (Hle 0%nat 1%nat
           (mkCandidate 4 "G2" ["G1"] ["COMPLETE_100"] ["COMPLETE_100"])
           (mkCandidate 4 "G3" ["G1"] ["COMPLETE_100"] ["COMPLETE_100"]));
    [lia|reflexivity|reflexivity].
Defined.

(** C3, the tie-break of the specification. On [tieGraph] the two targets
    have score 4, and the arrangement with [G3] before [G2] is ascending in
    score: it is a result the statement admits and it is not ordered by score
    and then identifier. *)
Lemma recommend_tie_not_by_id :
  ¬ ∀ l, recommendResult tieGraph "A" l → StronglySorted scoreThenId l.
Proof.
  intros Hall.
  specialize (Hall [ mkCandidate 4 "G3" ["G1"] ["COMPLETE_100"] ["COMPLETE_100"];
                     mkCandidate 4 "G2" ["G1"] ["COMPLETE_100"] ["COMPLETE_100"] ]).
  assert (returnRows (scoredPaths tieGraph "A")
          = [ mkCandidate 4 "G3" ["G1"] ["COMPLETE_100"] ["COMPLETE_100"];
              mkCandidate 4 "G2" ["G1"] ["COMPLETE_100"] ["COMPLETE_100"] ])
    as Hrows by (vm_compute; reflexivity).
  apply StronglySorted_inv in Hall as [_ Htail].
  - apply Forall_cons in Htail as [[Hlt|[_ Hleb]] _].
    + cbn in Hlt. lia.
    + by vm_compute in Hleb.
  - unfold recommendResult, orderedByDist. rewrite Hrows. split; [done|].
    repeat constructor; unfold byDist; cbn; lia.
Qed.

(* ===================================================================== *)
(** * Further properties *)
(* ===================================================================== *)

(** ** The slug derivation: collisions, separators, repeated derivation *)

Section GidFurther.
Import Gid.

Implicit Types (c : ascii) (s w : list ascii) (ws : list (list ascii)).

Lemma wordRuns_clean s : cleanWords (wordRuns s).
Proof.
  unfold cleanWords. induction s as [|c t IH]; [constructor|].
  destruct (isWordChar c) eqn:Hc; [|by rewrite wordRuns_nonword].
  rewrite wordRuns_word by done.
  assert (∀ w, forallb isWordChar w = true →
               (c :: w) ≠ [] ∧ forallb isWordChar (c :: w) = true) as Hcons.
  { intros w Hw. split; [done|]. cbn [forallb]. by rewrite Hc, Hw. }
  destruct t as [|c' t']; [repeat constructor; by apply Hcons|].
  destruct (isWordChar c').
  - destruct (wordRuns (c' :: t')) as [|w ws]; [repeat constructor; by apply Hcons|].
    apply Forall_cons in IH as [[_ Hw] Hws]. constructor; [by apply Hcons|done].
  - constructor; [by apply Hcons|done].
Qed.

(** A word followed by nothing or by a non-word character is a run. *)
Lemma wordRuns_app_word w rest :
  w ≠ [] → forallb isWordChar w = true →
  match rest with [] => True | c :: _ => isWordChar c = false end →
  wordRuns (w ++ rest) = w :: wordRuns rest.
Proof.
  intros Hne Hw Hrest. induction w as [|c w IH]; [done|].
  cbn [forallb] in Hw. apply andb_true_iff in Hw as [Hc Hw].
  change ((c :: w) ++ rest) with (c :: (w ++ rest)).
  rewrite wordRuns_word by done.
  destruct w as [|c2 w'].
  - cbn [app]. destruct rest as [|c' rest']; [done|]. by rewrite Hrest.
  - change ((c2 :: w') ++ rest) with (c2 :: (w' ++ rest)) in *.
    cbn [forallb] in Hw. apply andb_true_iff in Hw as [Hc2 Hw'].
    rewrite Hc2. rewrite IH; [done|done|].
    cbn [forallb]. by rewrite Hc2, Hw'.
Qed.

(** Splitting the joined words gives the words back. *)
Lemma wordRuns_joinDash ws : cleanWords ws → wordRuns (joinDash ws) = ws.
Proof.
  unfold cleanWords. induction 1 as [|w ws [Hne Hw] Hws IH]; [done|].
  destruct ws as [|w2 ws'].
  - cbn [joinDash]. rewrite <- (app_nil_r w) at 1.
    by rewrite wordRuns_app_word.
  - change (joinDash (w :: w2 :: ws'))
      with (w ++ "-"%char :: joinDash (w2 :: ws')).
    rewrite wordRuns_app_word by done.
    by rewrite wordRuns_nonword, IH.
Qed.

Lemma joinDash_inj ws1 ws2 :
  cleanWords ws1 → cleanWords ws2 → joinDash ws1 = joinDash ws2 → ws1 = ws2.
Proof.
  intros H1 H2 Heq. rewrite <- (wordRuns_joinDash ws1), <- (wordRuns_joinDash ws2);
    [by rewrite Heq|done|done].
Qed.

Lemma lowerChar_slug c : isSlugChar c = true → lowerChar c = c.
Proof. each_code_unit c; vm_compute; done. Qed.

(** A string of slug characters is in lower case already. *)
Lemma toLowerCase_slug s : forallb isSlugChar s = true → toLowerCase s = s.
Proof.
  apply (toLowerCase_steps (λ s r, forallb isSlugChar s = true → r = s)).
  - done.
  - intros t r _ Hs. by vm_compute in Hs.
  - intros t r _ Hs. by vm_compute in Hs.
  - intros c t r IH. cbn [forallb]. intros [Hc Ht]%andb_true_iff.
    by rewrite lowerChar_slug, IH.
Qed.

(** Equal ids come from equal runs. *)
Lemma gidFrom_eq_wordRuns (a b : string) :
  gidFrom a = gidFrom b →
  wordRuns (toLowerCase (list_ascii_of_string a))
  = wordRuns (toLowerCase (list_ascii_of_string b)).
Proof.
  intros Heq. apply (f_equal list_ascii_of_string) in Heq.
  rewrite !gidFrom_units, !gidFromUnits_wordRuns in Heq.
  apply app_inv_head in Heq.
  apply joinDash_inj in Heq; [done|apply wordRuns_clean..].
Qed.

End GidFurther.

(** X1. Two names get the same id exactly when their lower-cased forms have
    the same runs of word characters: case, and what stands between the runs
    and around them, is all that [gidFrom] forgets. *)
Theorem gidFrom_collision (a b : string) :
  Gid.gidFrom a = Gid.gidFrom b
  ↔ Gid.wordRuns (Gid.toLowerCase (list_ascii_of_string a))
    = Gid.wordRuns (Gid.toLowerCase (list_ascii_of_string b)).
Proof.
  split.
  - apply gidFrom_eq_wordRuns.
  - intros Heq. unfold Gid.gidFrom. by rewrite !gidFromUnits_wordRuns, Heq.
Qed.

Lemma gidFrom_collision_witness :
  Gid.gidFrom "Mass Effect 3" = Gid.gidFrom "--MASS: effect (3)".
Proof.
  apply (proj2 (gidFrom_collision "Mass Effect 3" "--MASS: effect (3)")).
  reflexivity.
Defined.

(** X3. Deriving the id of an id does not give the id back: the first id is
    read as a name whose first word is [gid], so the result is ["gid-gid"],
    followed by a dash and the slug when there is one. *)
Theorem gidFrom_twice (raw : string) :
  list_ascii_of_string (Gid.gidFrom (Gid.gidFrom raw))
  = list_ascii_of_string "gid-"
      ++ Gid.joinDash
           (list_ascii_of_string "gid"
              :: Gid.wordRuns (Gid.toLowerCase (list_ascii_of_string raw)))
  ∧ Gid.gidFrom (Gid.gidFrom raw) ≠ Gid.gidFrom raw.
Proof.
  set (ws := Gid.wordRuns (Gid.toLowerCase (list_ascii_of_string raw))).
  assert (cleanWords ws) as Hws by apply wordRuns_clean.
  assert (Gid.wordRuns
            (Gid.toLowerCase (list_ascii_of_string (Gid.gidFrom raw)))
          = list_ascii_of_string "gid" :: ws) as Hruns.
  { rewrite gidFrom_units, gidFromUnits_wordRuns. fold ws.
    rewrite toLowerCase_slug.
    2: { rewrite forallb_app. unfold ws. by rewrite join_slug. }
    change (list_ascii_of_string "gid-" ++ Gid.joinDash ws)
      with (list_ascii_of_string "gid" ++ "-"%char :: Gid.joinDash ws).
    rewrite wordRuns_app_word by done.
    by rewrite wordRuns_nonword, wordRuns_joinDash. }
  split.
  - by rewrite gidFrom_units, gidFromUnits_wordRuns, Hruns.
  - intros Heq%gidFrom_eq_wordRuns. rewrite Hruns in Heq. fold ws in Heq.
    apply (f_equal length) in Heq. cbn in Heq. lia.
Qed.

Section GidSeparators.
Import Gid.

Implicit Types (c : ascii) (s w : list ascii) (ws : list (list ascii)).

Lemma word_not_dash c : isWordChar c = true → Ascii.eqb c "-" = false.
Proof. intros Hc. destruct (Ascii.eqb_spec c "-"); [by subst|done]. Qed.

Lemma startsWithDash_clean ws : cleanWords ws → startsWithDash (joinDash ws) = false.
Proof.
  destruct 1 as [|w ws [Hne Hw] _]; [done|].
  destruct w as [|c w]; [done|]. rewrite joinDash_cons_cons. cbn.
  cbn [forallb] in Hw. apply andb_true_iff in Hw as [Hc _].
  by apply word_not_dash.
Qed.

Lemma dashesApart_word_app w rest :
  forallb isWordChar w = true → dashesApart (w ++ rest) = dashesApart rest.
Proof.
  induction w as [|c w IH]; [done|]. cbn [forallb app dashesApart].
  intros [Hc Hw]%andb_true_iff. by rewrite word_not_dash, IH.
Qed.

Lemma dashesApart_join ws : cleanWords ws → dashesApart (joinDash ws) = true.
Proof.
  unfold cleanWords. induction 1 as [|w ws [Hne Hw] Hws IH]; [done|].
  destruct ws as [|w2 ws'].
  - cbn [joinDash]. rewrite <- (app_nil_r w). by rewrite dashesApart_word_app.
  - change (joinDash (w :: w2 :: ws'))
      with (w ++ "-"%char :: joinDash (w2 :: ws')).
    rewrite dashesApart_word_app by done. cbn [dashesApart].
    rewrite IH, startsWithDash_clean by done. done.
Qed.

Lemma dashesApart_no_pair s l1 l2 :
  dashesApart s = true → s ≠ l1 ++ "-"%char :: "-"%char :: l2.
Proof.
  revert s. induction l1 as [|x l1 IH]; intros s Hs ->.
  - cbn in Hs. done.
  - cbn [app dashesApart] in Hs. apply andb_true_iff in Hs as [_ Hs].
    by apply (IH _ Hs).
Qed.

Lemma joinDash_last ws :
  cleanWords ws → ws ≠ [] →
  ∃ l c, joinDash ws = l ++ [c] ∧ isWordChar c = true.
Proof.
  unfold cleanWords. induction 1 as [|w ws [Hne Hw] Hws IH]; [done|]. intros _.
  destruct ws as [|w2 ws'].
  - cbn [joinDash]. destruct w as [|c l _] using rev_ind; [done|].
    rewrite forallb_app in Hw. apply andb_true_iff in Hw as [_ Hc].
    cbn in Hc. rewrite andb_true_r in Hc. by exists l, c.
  - destruct IH as (l & c & Hl & Hc); [done|].
    change (joinDash (w :: w2 :: ws'))
      with (w ++ "-"%char :: joinDash (w2 :: ws')).
    rewrite Hl. exists (w ++ "-"%char :: l), c. split; [|done].
    by rewrite <- app_assoc.
Qed.

(** Every separator of the joined runs follows a word character. *)
Lemma length_join s :
  (length (joinDash (wordRuns s))
   ≤ 2 * length (filter (λ c, isWordChar c = true) s))%nat.
Proof.
  induction s as [|c t IH]; [done|].
  destruct (isWordChar c) eqn:Hc.
  - rewrite joinDash_word_step, filter_cons_True by done.
    destruct (leadingDash t); cbn [length]; lia.
  - rewrite wordRuns_nonword by done.
    rewrite filter_cons_False; [done|]. by rewrite Hc.
Qed.

Lemma filter_word_join s :
  filter (λ c, isWordChar c = true) (joinDash (wordRuns s))
  = filter (λ c, isWordChar c = true) s.
Proof.
  induction s as [|c t IH]; [done|].
  destruct (isWordChar c) eqn:Hc.
  - rewrite joinDash_word_step by done. rewrite !filter_cons_True by done.
    f_equal. destruct (leadingDash t); [|done].
    rewrite filter_cons_False; [done|]. by intros [=].
  - rewrite wordRuns_nonword by done.
    rewrite (filter_cons_False _ c); [done|]. by rewrite Hc.
Qed.

End GidSeparators.

(** X2. An id never holds two dashes in a row, and it ends in a word
    character unless it is ["gid-"]: the separators stand singly between
    words. *)
Theorem gidFrom_separators (raw : string) :
  (∀ l1 l2 : list ascii,
     list_ascii_of_string (Gid.gidFrom raw) ≠ l1 ++ "-"%char :: "-"%char :: l2)
  ∧ (Gid.gidFrom raw = "gid-"
     ∨ ∃ (l : list ascii) (c : ascii),
         list_ascii_of_string (Gid.gidFrom raw) = l ++ [c]
         ∧ Gid.isWordChar c = true).
Proof.
  set (ws := Gid.wordRuns (Gid.toLowerCase (list_ascii_of_string raw))).
  assert (cleanWords ws) as Hws by apply wordRuns_clean.
  assert (list_ascii_of_string (Gid.gidFrom raw)
          = list_ascii_of_string "gid-" ++ Gid.joinDash ws) as Hout
    by by rewrite gidFrom_units, gidFromUnits_wordRuns.
  split.
  - intros l1 l2. rewrite Hout. apply dashesApart_no_pair.
    change (list_ascii_of_string "gid-" ++ Gid.joinDash ws)
      with ("g" :: "i" :: "d" :: "-" :: Gid.joinDash ws)%char.
    cbn [dashesApart]. cbn [Ascii.eqb Bool.eqb andb].
    by rewrite startsWithDash_clean, dashesApart_join.
  - destruct ws as [|w ws'] eqn:Hw.
    + left. unfold Gid.gidFrom. rewrite gidFromUnits_wordRuns. fold ws.
      by rewrite Hw.
    + right. destruct (joinDash_last (w :: ws') Hws) as (l & c & Hl & Hc); [done|].
      exists (list_ascii_of_string "gid-" ++ l), c. split; [|done].
      by rewrite Hout, Hl, app_assoc.
Qed.

(** X4. An id is at least four characters long, and at most four plus twice
    the number of word characters of the lower-cased name, however many other
    characters the name has. (It can be longer than the name: the lower case
    of U+0130 has the letter [i].) *)
Theorem gidFrom_length (raw : string) :
  (4 ≤ length (list_ascii_of_string (Gid.gidFrom raw)))%nat
  ∧ (length (list_ascii_of_string (Gid.gidFrom raw))
     ≤ 4 + 2 * length (filter (λ c, Gid.isWordChar c = true)
                         (Gid.toLowerCase (list_ascii_of_string raw))))%nat.
Proof.
  rewrite gidFrom_units, gidFromUnits_wordRuns, length_app.
  pose proof (length_join (Gid.toLowerCase (list_ascii_of_string raw))).
  cbn [length list_ascii_of_string]. lia.
Qed.

(** Two characters U+0130 give an id of seven characters. *)
Lemma gidFrom_capital_i_dot : Gid.gidFrom twoCapitalIDots = "gid-i-i".
Proof. reflexivity. Qed.

(** X5. The word characters of an id are [gid] and then the lower-cased word
    characters of the name, all of them and in their order: only non-word
    characters are dropped or replaced. *)
Theorem gidFrom_keeps_word_characters (raw : string) :
  filter (λ c, Gid.isWordChar c = true) (list_ascii_of_string (Gid.gidFrom raw))
  = list_ascii_of_string "gid"
      ++ filter (λ c, Gid.isWordChar c = true)
           (Gid.toLowerCase (list_ascii_of_string raw)).
Proof.
  rewrite gidFrom_units, gidFromUnits_wordRuns, filter_app, filter_word_join.
  done.
Qed.

(** ** The write path: answers, frame, invariants, order of calls *)

Section WriteFurther.

Implicit Types (G : Graph) (st : Store) (r : Rel).

(** The graph after a call, by the relationship the call merges. *)
Lemma upsertEdge_addRel u g k st :
  graph (upsertEdge u g k st).2 = addRel (writtenBy (graph st) u g k) (graph st).
Proof.
  unfold upsertEdge, upsertEdgeRun, writtenBy. repeat case_decide; try done.
  destruct (isValid k); cbn [negb]; [|done].
  destruct (distanceOf k) as [d|]; cbn; [|done].
  unfold mergeRelationship.
  destruct (g_users (graph st) !! u), (g_games (graph st) !! g); done.
Qed.

Lemma addRel_nodes o G :
  g_users (addRel o G) = g_users G ∧ g_games (addRel o G) = g_games G.
Proof. destruct o as [r|]; cbn; [case_decide|]; done. Qed.

Lemma addRel_rels o G :
  g_rels (addRel o G) = g_rels G
  ∨ ∃ r, o = Some r ∧ (r ∉ g_rels G) ∧ g_rels (addRel o G) = g_rels G ++ [r].
Proof. destruct o as [r|]; cbn; [case_decide|]; eauto. Qed.

Lemma writtenBy_nodes G G' u g k :
  g_users G' = g_users G → g_games G' = g_games G →
  writtenBy G' u g k = writtenBy G u g k.
Proof. intros Hu Hg. unfold writtenBy. by rewrite Hu, Hg. Qed.

Lemma writtenBy_Some G u g k r :
  writtenBy G u g k = Some r →
  r = mkRel u k (rel_dist r) g ∧ wellFormedRel G r ∧ u ≠ "" ∧ g ≠ "".
Proof.
  unfold writtenBy. repeat case_decide; try done.
  destruct (isValid k) eqn:Hk; [|done].
  destruct (distanceOf k) as [d|] eqn:Hd; [|done].
  destruct (g_users G !! u) eqn:Hu; [|done].
  destruct (g_games G !! g) eqn:Hg; [|done].
  cbn. intros [= <-]. unfold wellFormedRel. cbn. rewrite Hu, Hg.
  split_and!; eauto.
Qed.

Lemma wellFormedRel_nodes G G' r :
  g_users G' = g_users G → g_games G' = g_games G →
  wellFormedRel G r → wellFormedRel G' r.
Proof. intros Hu Hg. unfold wellFormedRel. by rewrite Hu, Hg. Qed.

(** The relationships of a reachable store are well formed. *)
Lemma reachable_wellFormed st :
  reachable st → Forall (wellFormedRel (graph st)) (g_rels (graph st)).
Proof.
  induction 1 as [st Hnil|st run u g k _ IH|st run gameId _ IH].
  - rewrite Hnil. constructor.
  - destruct (upsertEdgeRun_graph run u g k st) as [->| ->]; [done|].
    rewrite upsertEdge_addRel.
    destruct (addRel_nodes (writtenBy (graph st) u g k) (graph st)) as [Hu Hg].
    assert (Forall (wellFormedRel (addRel (writtenBy (graph st) u g k) (graph st)))
                   (g_rels (graph st))) as IH'.
    { eapply Forall_impl; [exact IH|]. intros r. by apply wellFormedRel_nodes. }
    destruct (addRel_rels (writtenBy (graph st) u g k) (graph st))
      as [->|(r & Hr & _ & ->)]; [done|].
    apply Forall_app. split; [done|]. apply Forall_singleton.
    apply writtenBy_Some in Hr as (_ & Hwf & _). by apply wellFormedRel_nodes with (graph st).
  - by rewrite getGameRun_graph.
Qed.

(** What the handler does with non-empty identifiers and a valid kind, by
    what becomes of its statement. *)
Lemma upsertEdgeRun_valid run u g k st :
  u ≠ "" → g ≠ "" → isValid k = true →
  ∃ d, distanceOf k = Some d
       ∧ upsertEdgeRun run u g k st
         = match run with
           | Resolved =>
               (SendStatus 200,
                mkStore (mergeRelationship u g k d (graph st))
                        (issued st ++ [MergeRelationship u g k d]))
           | Rejected message =>
               (Json 500 (Message message),
                mkStore (graph st) (issued st ++ [MergeRelationship u g k d]))
           end.
Proof.
  intros Hu Hg Hk. destruct (isValid_distanceOf k Hk) as [d Hd].
  exists d. split; [done|]. unfold upsertEdgeRun.
  rewrite !decide_False, Hk, Hd by done. by destruct run.
Qed.

Lemma upsertEdgeRun_refused run u g k st :
  u = "" ∨ g = "" ∨ isValid k = false →
  (upsertEdgeRun run u g k st).2 = st
  ∧ ∃ msg, (upsertEdgeRun run u g k st).1 = Json 400 (Message msg).
Proof.
  intros Hbad. unfold upsertEdgeRun.
  case_decide; [by eauto|]. case_decide; [by eauto|].
  destruct Hbad as [?|[?|Hk]]; [done|done|]. rewrite Hk. cbn. eauto.
Qed.

End WriteFurther.

(** X6. The handler always answers. With an empty identifier or a kind
    outside the vocabulary the answer is status 400 and the store is left as
    it was. Otherwise the [MERGE] statement with the distance of the kind is
    handed to the store: when it resolves the answer is status 200 and the
    relationship is merged; when it rejects the answer is status 500 with the
    message of the error and the graph is as before. *)
Theorem upsertEdge_answer (run : RunOutcome) (u g k : string) (st : Store) :
  ((u = "" ∨ g = "" ∨ isValid k = false)
   ∧ (∃ msg, (upsertEdgeRun run u g k st).1 = Json 400 (Message msg))
   ∧ (upsertEdgeRun run u g k st).2 = st)
  ∨ (u ≠ "" ∧ g ≠ "" ∧ isValid k = true
     ∧ ∃ d, distanceOf k = Some d
            ∧ issued (upsertEdgeRun run u g k st).2
              = issued st ++ [MergeRelationship u g k d]
            ∧ match run with
              | Resolved =>
                  (upsertEdgeRun run u g k st).1 = SendStatus 200
                  ∧ graph (upsertEdgeRun run u g k st).2
                    = mergeRelationship u g k d (graph st)
              | Rejected message =>
                  (upsertEdgeRun run u g k st).1 = Json 500 (Message message)
                  ∧ graph (upsertEdgeRun run u g k st).2 = graph st
              end).
Proof.
  destruct (decide (u = "")) as [Hu|Hu].
  { left. destruct (upsertEdgeRun_refused run u g k st) as [Hst Hmsg]; auto. }
  destruct (decide (g = "")) as [Hg|Hg].
  { left. destruct (upsertEdgeRun_refused run u g k st) as [Hst Hmsg]; auto. }
  destruct (isValid k) eqn:Hk.
  - right. destruct (upsertEdgeRun_valid run u g k st Hu Hg Hk) as (d & Hd & ->).
    split_and!; try done. exists d. by destruct run.
  - left. destruct (upsertEdgeRun_refused run u g k st) as [Hst Hmsg]; auto.
Qed.

(** X7. For an identifier that names no node the statement is handed to the
    store all the same and matches no row: when it resolves the call is
    answered with status 200 although no relationship is written; whatever
    becomes of it, the graph and the user's edges are as before. *)
Theorem upsertEdge_missing_node (run : RunOutcome) (u g k : string) (st : Store) :
  u ≠ "" → g ≠ "" → isValid k = true →
  g_users (graph st) !! u = None ∨ g_games (graph st) !! g = None →
  (upsertEdgeRun run u g k st).1
  = match run with
    | Resolved => SendStatus 200
    | Rejected message => Json 500 (Message message)
    end
  ∧ length (issued (upsertEdgeRun run u g k st).2) = S (length (issued st))
  ∧ graph (upsertEdgeRun run u g k st).2 = graph st
  ∧ edgesOf (graph (upsertEdgeRun run u g k st).2) u = edgesOf (graph st) u.
Proof.
  intros Hu Hg Hk Hnone.
  destruct (upsertEdgeRun_valid run u g k st Hu Hg Hk) as (d & _ & ->).
  assert (mergeRelationship u g k d (graph st) = graph st) as Hmerge.
  { unfold mergeRelationship.
    destruct Hnone as [->| ->]; [done|]. by destruct (g_users (graph st) !! u). }
  destruct run as [|message]; cbn [fst snd graph issued];
    rewrite ?Hmerge, length_app; cbn [length]; split_and!; try done; lia.
Qed.

Lemma upsertEdge_missing_node_witness :
  (upsertEdgeRun Resolved "Z" "G1" "BEATEN" (mkStore scenarioGraph [])).1
  = SendStatus 200
  ∧ graph (upsertEdgeRun Resolved "Z" "G1" "BEATEN" (mkStore scenarioGraph [])).2
    = scenarioGraph.
Proof.
  destruct (upsertEdge_missing_node Resolved "Z" "G1" "BEATEN"
              (mkStore scenarioGraph []))
    as (H1 & _ & H2 & _); [discriminate|discriminate|reflexivity|left; reflexivity|].
  split; [exact H1|exact H2].
Defined.

(** X8. A call never touches the nodes, never removes or changes a
    relationship and writes at most one; what [edgesOf] gives for another
    user and what the statement of GET /games/:gameId gives for another game
    stay as they were. *)
Theorem upsertEdge_frame (u g k : string) (st : Store) :
  g_users (graph (upsertEdge u g k st).2) = g_users (graph st)
  ∧ g_games (graph (upsertEdge u g k st).2) = g_games (graph st)
  ∧ g_rels (graph st) `prefix_of` g_rels (graph (upsertEdge u g k st).2)
  ∧ (length (g_rels (graph (upsertEdge u g k st).2))
     ≤ S (length (g_rels (graph st))))%nat
  ∧ (∀ u', u' ≠ u →
       edgesOf (graph (upsertEdge u g k st).2) u' = edgesOf (graph st) u')
  ∧ (∀ g', g' ≠ g →
       matchGameUsers (graph (upsertEdge u g k st).2) g'
       = matchGameUsers (graph st) g').
Proof.
  rewrite upsertEdge_addRel.
  set (o := writtenBy (graph st) u g k).
  destruct (addRel_nodes o (graph st)) as [Hus Hgs].
  destruct (addRel_rels o (graph st)) as [Hrels|(r & Ho & _ & Hrels)].
  - unfold edgesOf, matchGameUsers. rewrite Hus, Hgs, Hrels.
    split_and!; try done. lia.
  - apply writtenBy_Some in Ho as (Hr & _).
    unfold edgesOf, matchGameUsers. rewrite Hus, Hgs, Hrels.
    split_and!; try done.
    + by apply prefix_app_r.
    + rewrite length_app. cbn. lia.
    + intros u' Hne. rewrite filter_app, filter_cons_False, filter_nil, app_nil_r;
        [done|]. rewrite Hr. cbn. congruence.
    + intros g' Hne. destruct (g_games (graph st) !! g'); [|done].
      rewrite omap_app. cbn. rewrite decide_False, app_nil_r; [done|].
      rewrite Hr. cbn. congruence.
Qed.

Lemma upsertEdge_frame_witness :
  edgesOf (graph (upsertEdge "A" "G2" "BEATEN" (mkStore scenarioGraph [])).2) "B"
  = edgesOf scenarioGraph "B"
  ∧ matchGameUsers
      (graph (upsertEdge "A" "G2" "BEATEN" (mkStore scenarioGraph [])).2) "G1"
    = matchGameUsers scenarioGraph "G1".
Proof.
  destruct (upsertEdge_frame "A" "G2" "BEATEN" (mkStore scenarioGraph []))
    as (_ & _ & _ & _ & Hu & Hg).
  split; [apply Hu; discriminate|apply Hg; discriminate].
Defined.

(** X9. In a store that started without relationships every relationship is
    of a kind of the vocabulary, carries the distance of its kind and links a
    user node and a game node of the graph. *)
Theorem reachable_relationships_well_formed (st : Store) :
  reachable st →
  ∀ r, r ∈ g_rels (graph st) →
    isValid (rel_type r) = true
    ∧ distanceOf (rel_type r) = Some (rel_dist r)
    ∧ is_Some (g_users (graph st) !! rel_from r)
    ∧ is_Some (g_games (graph st) !! rel_to r).
Proof.
  intros Hst r Hr. apply reachable_wellFormed in Hst.
  rewrite Forall_forall in Hst. by apply Hst.
Qed.

Lemma reachable_relationships_well_formed_witness :
  let st := (upsertEdge "B" "G2" "GOT_BORED"
               (upsertEdge "A" "G1" "BEATEN" (mkStore nodesOnlyGraph [])).2).2 in
  g_rels (graph st) = [mkRel "A" "BEATEN" 2 "G1"; mkRel "B" "GOT_BORED" 8 "G2"]
  ∧ isValid "GOT_BORED" = true
  ∧ distanceOf "GOT_BORED" = Some 8%Z
  ∧ is_Some (g_users (graph st) !! "B")
  ∧ is_Some (g_games (graph st) !! "G2").
Proof.
  intros st.
  assert (g_rels (graph st)
          = [mkRel "A" "BEATEN" 2 "G1"; mkRel "B" "GOT_BORED" 8 "G2"]) as Hrels
    by (vm_compute; reflexivity).
  split; [exact Hrels|].
  apply (reachable_relationships_well_formed st
           (reachable_upsert _ Resolved "B" "G2" "GOT_BORED"
              (reachable_upsert _ Resolved "A" "G1" "BEATEN"
                 (reachable_init (mkStore nodesOnlyGraph []) eq_refl)))
           (mkRel "B" "GOT_BORED" 8 "G2")).
  rewrite Hrels. right. left.
Defined.

Section WriteOrder.

Implicit Types (G : Graph) (st : Store) (r : Rel).

Lemma addRel_in r G : r ∈ g_rels G → addRel (Some r) G = G.
Proof. intros Hr. cbn. by rewrite decide_True. Qed.

Lemma addRel_new r G :
  r ∉ g_rels G → g_rels (addRel (Some r) G) = g_rels G ++ [r].
Proof. intros Hr. cbn. by rewrite decide_False. Qed.

Lemma addRel_comm o1 o2 G :
  g_rels (addRel o2 (addRel o1 G)) ≡ₚ g_rels (addRel o1 (addRel o2 G)).
Proof.
  destruct o1 as [r1|], o2 as [r2|]; try done.
  destruct (decide (r1 = r2)) as [->|Hne]; [done|].
  destruct (decide (r1 ∈ g_rels G)) as [H1|H1],
           (decide (r2 ∈ g_rels G)) as [H2|H2].
  - by rewrite (addRel_in r1 G), (addRel_in r2 G), (addRel_in r1 G).
  - rewrite (addRel_in r1 G) by done.
    rewrite (addRel_in r1 (addRel (Some r2) G)); [done|].
    rewrite addRel_new by done. apply elem_of_app. by left.
  - rewrite (addRel_in r2 G) by done.
    rewrite (addRel_in r2 (addRel (Some r1) G)); [done|].
    rewrite addRel_new by done. apply elem_of_app. by left.
  - rewrite (addRel_new r2 (addRel (Some r1) G)), (addRel_new r1 (addRel (Some r2) G)).
    + rewrite !addRel_new by done. rewrite <- !app_assoc.
      apply Permutation_app_head. apply Permutation_swap.
    + rewrite addRel_new by done.
      rewrite elem_of_app, list_elem_of_singleton. intros [?|?]; done.
    + rewrite addRel_new by done.
      rewrite elem_of_app, list_elem_of_singleton. intros [?|?]; done.
Qed.

Lemma upsertEdge_response_store u g k st st' :
  (upsertEdge u g k st).1 = (upsertEdge u g k st').1.
Proof.
  unfold upsertEdge, upsertEdgeRun. repeat case_decide; try done.
  destruct (isValid k); cbn [negb]; [|done]. by destruct (distanceOf k).
Qed.

End WriteOrder.

(** X10. In a store that started without relationships a user and a game are
    linked by at most six relationships, one for each kind. *)
Theorem reachable_at_most_six (st : Store) (u g : string) :
  reachable st → (length (between (graph st) u g) ≤ 6)%nat.
Proof.
  intros Hst.
  destruct (reachable_invariant st Hst) as [Hone _].
  pose proof (reachable_wellFormed st Hst) as Hwf.
  unfold oneEdgePerKind in Hone. rewrite Forall_forall in Hwf.
  set (B := between (graph st) u g).
  assert (NoDup (relKey <$> B)) as HndB.
  { eapply sublist_NoDup; [exact Hone|].
    apply fmap_sublist. apply sublist_filter. }
  assert (relKey <$> B = (λ k, (u, g, k)) <$> (rel_type <$> B)) as Hkeys.
  { rewrite <- list_fmap_compose. apply Forall_fmap_ext, Forall_forall.
    intros r [[<- <-] _]%list_elem_of_filter. done. }
  rewrite Hkeys in HndB. apply NoDup_fmap_1 in HndB.
  rewrite <- (length_fmap rel_type).
  change 6%nat with (length ["COMPLETE_100"; "BEATEN"; "SET_ASIDE_ENJOYED";
                             "SET_ASIDE"; "GOT_BORED"; "WOULD_NOT_LIKE"]).
  apply submseteq_length, NoDup_submseteq; [done|].
  intros k (r & -> & [_ Hr]%list_elem_of_filter)%list_elem_of_fmap.
  destruct (Hwf r Hr) as (Hk%isValid_cases & _).
  rewrite !elem_of_cons. tauto.
Qed.

Lemma reachable_at_most_six_witness :
  (length (between
             (graph (upsertEdge "A" "G1" "SET_ASIDE"
                       (upsertEdge "A" "G1" "BEATEN"
                          (mkStore nodesOnlyGraph [])).2).2)
             "A" "G1") ≤ 6)%nat.
Proof.
  apply reachable_at_most_six.
  do 2 apply reachable_upsert. by apply reachable_init.
Defined.

(** X11. The order of two calls does not matter for what is stored: the two
    orders end with the same nodes and the same relationships, up to the
    order in which the store holds them; and the answer to a call does not
    depend on the calls before it. *)
Theorem upsertEdge_order (u1 g1 k1 u2 g2 k2 : string) (st : Store) :
  g_users (graph (upsertEdge u2 g2 k2 (upsertEdge u1 g1 k1 st).2).2)
  = g_users (graph (upsertEdge u1 g1 k1 (upsertEdge u2 g2 k2 st).2).2)
  ∧ g_games (graph (upsertEdge u2 g2 k2 (upsertEdge u1 g1 k1 st).2).2)
    = g_games (graph (upsertEdge u1 g1 k1 (upsertEdge u2 g2 k2 st).2).2)
  ∧ g_rels (graph (upsertEdge u2 g2 k2 (upsertEdge u1 g1 k1 st).2).2)
    ≡ₚ g_rels (graph (upsertEdge u1 g1 k1 (upsertEdge u2 g2 k2 st).2).2)
  ∧ (upsertEdge u2 g2 k2 (upsertEdge u1 g1 k1 st).2).1
    = (upsertEdge u2 g2 k2 st).1.
Proof.
  rewrite !upsertEdge_addRel.
  set (o1 := writtenBy (graph st) u1 g1 k1).
  set (o2 := writtenBy (graph st) u2 g2 k2).
  destruct (addRel_nodes o1 (graph st)) as [Hu1 Hg1].
  destruct (addRel_nodes o2 (graph st)) as [Hu2 Hg2].
  rewrite (writtenBy_nodes (graph st) (addRel o1 (graph st))) by done.
  rewrite (writtenBy_nodes (graph st) (addRel o2 (graph st))) by done.
  fold o1 o2.
  destruct (addRel_nodes o2 (addRel o1 (graph st))) as [-> ->].
  destruct (addRel_nodes o1 (addRel o2 (graph st))) as [-> ->].
  split_and!; [congruence|congruence|apply addRel_comm|].
  apply upsertEdge_response_store.
Qed.

(** ** GET /games/:gameId: what a successful answer lists *)

Section GetGameFurther.

Implicit Types (G : Graph) (st : Store) (r : Rel).

Lemma matchGameUsers_records G gameId name (record : GameUserRecord) :
  g_games G !! gameId = Some name →
  record ∈ matchGameUsers G gameId
  ↔ ∃ r uname, r ∈ g_rels G ∧ rel_to r = gameId
               ∧ g_users G !! rel_from r = Some uname
               ∧ record = mkGUR (mkGame gameId name)
                                (mkUser (rel_from r) uname) (rel_type r).
Proof.
  intros Hg. unfold matchGameUsers. rewrite Hg, list_elem_of_omap. split.
  - intros (r & Hr & Hsome). case_decide; [|done].
    destruct (g_users G !! rel_from r) as [uname|] eqn:Hu; [|done].
    cbn in Hsome. injection Hsome as <-. by exists r, uname.
  - intros (r & uname & Hr & Hto & Hu & ->). exists r. split; [done|].
    rewrite decide_True, Hu by done. done.
Qed.

(** The answer for a non-empty result whose records all hold [game]. *)
Lemma getGameResponse_records (records : list GameUserRecord) (game : Game) :
  records ≠ [] → (∀ record, record ∈ records → gur_game record = game) →
  getGameResponse records
  = Json 200 (GameAndUsers game
                ((λ record, mkUWR (gur_user record) (gur_relationship record))
                   <$> records)).
Proof.
  intros Hne Hgame. destruct records as [|r0 records]; [done|].
  unfold getGameResponse. cbn [lookup list_lookup].
  rewrite (Hgame r0) by left. destruct game as [gid gname]. cbn [game_id game_name].
  do 2 f_equal. apply list_fmap_ext. intros _ record _.
  by destruct (gur_user record).
Qed.

(** One record for each relationship into the game, when their users are
    nodes of the graph. *)
Lemma matchGameUsers_relationships G gameId name :
  g_games G !! gameId = Some name →
  Forall (λ r, is_Some (g_users G !! rel_from r)) (g_rels G) →
  (λ record, (user_id (gur_user record), gur_relationship record))
    <$> matchGameUsers G gameId
  = (λ r, (rel_from r, rel_type r)) <$> filter (λ r, rel_to r = gameId) (g_rels G).
Proof.
  intros Hg. unfold matchGameUsers. rewrite Hg.
  generalize (g_rels G) as rels.
  induction 1 as [|r rels [uname Hu] _ IH]; [done|].
  cbn [omap list_omap]. case_decide as Hto.
  - rewrite Hu, filter_cons_True by done. cbn [mbind option_bind].
    rewrite !fmap_cons, <- IH. done.
  - rewrite filter_cons_False by done. done.
Qed.

End GetGameFurther.

(** X12. In a store that started without relationships, GET /games/:gameId
    for a game with at least one relationship answers, when its statement
    resolves, with status 200, the game of that id, and one entry for each
    relationship into the game, in the order of the store: the user's id and
    the kind (a user with two kinds is listed twice). When the statement
    rejects it answers with status 500 and the message of the error. *)
Theorem getGame_lists_relationships (run : RunOutcome) (gameId name : string)
    (st : Store) :
  reachable st → gameId ≠ "" →
  g_games (graph st) !! gameId = Some name →
  filter (λ r, rel_to r = gameId) (g_rels (graph st)) ≠ [] →
  ∃ users,
    (getGameRun run gameId st).1
    = match run with
      | Resolved => Json 200 (GameAndUsers (mkGame gameId name) users)
      | Rejected message => Json 500 (Message message)
      end
    ∧ (λ x, (user_id (uwr_user x), uwr_relationship x)) <$> users
      = (λ r, (rel_from r, rel_type r))
          <$> filter (λ r, rel_to r = gameId) (g_rels (graph st)).
Proof.
  intros Hst Hid Hg Hne.
  assert (Forall (λ r, is_Some (g_users (graph st) !! rel_from r))
                 (g_rels (graph st))) as Husers.
  { eapply Forall_impl; [by apply reachable_wellFormed|].
    by intros r (_ & _ & Hu & _). }
  pose proof (matchGameUsers_relationships _ _ _ Hg Husers) as Hrecs.
  eexists. split.
  - unfold getGameRun. rewrite decide_False by done. cbn [fst].
    destruct run as [|message]; [|done].
    apply getGameResponse_records.
    + intros Hnil. rewrite Hnil in Hrecs. cbn in Hrecs.
      symmetry in Hrecs. by apply fmap_nil_inv in Hrecs.
    + intros record (r & uname & _ & _ & _ & ->)%(matchGameUsers_records _ _ name);
        done.
  - rewrite <- Hrecs, <- list_fmap_compose. done.
Qed.

Lemma getGame_lists_relationships_witness :
  let st := (upsertEdge "B" "G1" "GOT_BORED"
               (upsertEdge "A" "G1" "BEATEN" (mkStore nodesOnlyGraph [])).2).2 in
  ∃ users,
    (getGameRun Resolved "G1" st).1
    = Json 200 (GameAndUsers (mkGame "G1" "Game One") users)
    ∧ (λ x, (user_id (uwr_user x), uwr_relationship x)) <$> users
      = [("A", "BEATEN"); ("B", "GOT_BORED")].
Proof.
  intros st.
  destruct (getGame_lists_relationships Resolved "G1" "Game One" st)
    as (users & H1 & H2).
  - do 2 apply reachable_upsert. by apply reachable_init.
  - discriminate.
  - reflexivity.
  - vm_compute. discriminate.
  - exists users. split; [exact H1|]. rewrite H2. vm_compute. reflexivity.
Defined.

(** X13. After a call of [upsertEdge] for a user and a game of the graph with
    a valid kind whose statement resolved, GET /games/:gameId for that game,
    when its statement resolves, answers with status 200 and lists the user
    with that kind; when its statement rejects it answers with status 500. *)
Theorem upsertEdge_then_getGame (run : RunOutcome) (u g k nu ng : string)
    (st : Store) :
  u ≠ "" → g ≠ "" → isValid k = true →
  g_users (graph st) !! u = Some nu → g_games (graph st) !! g = Some ng →
  ∃ users,
    (getGameRun run g (upsertEdgeRun Resolved u g k st).2).1
    = match run with
      | Resolved => Json 200 (GameAndUsers (mkGame g ng) users)
      | Rejected message => Json 500 (Message message)
      end
    ∧ mkUWR (mkUser u nu) k ∈ users.
Proof.
  intros Hu Hg Hk Hnu Hng.
  destruct (upsertEdgeRun_valid Resolved u g k st Hu Hg Hk) as (d & Hd & ->).
  cbn [snd].
  set (G' := mergeRelationship u g k d (graph st)).
  destruct (mergeRelationship_nodes u g k d (graph st)) as [Hus Hgs].
  assert (g_games G' !! g = Some ng) as Hng' by (unfold G'; by rewrite Hgs).
  assert (mkGUR (mkGame g ng) (mkUser u nu) k ∈ matchGameUsers G' g) as Hrec.
  { apply (matchGameUsers_records G' g ng); [done|].
    exists (mkRel u k d g), nu. split_and!; try done.
    - apply mergeRelationship_elem; by eexists.
    - unfold G'. by rewrite Hus. }
  eexists. split.
  - unfold getGameRun. rewrite decide_False by done. cbn [fst graph].
    destruct run as [|message]; [|done].
    apply getGameResponse_records.
    + intros Hnil. fold G' in Hnil. rewrite Hnil in Hrec.
      by apply not_elem_of_nil in Hrec.
    + intros record (r & uname & _ & _ & _ & ->)%(matchGameUsers_records _ _ ng);
        done.
  - apply list_elem_of_fmap. by exists (mkGUR (mkGame g ng) (mkUser u nu) k).
Qed.

Lemma upsertEdge_then_getGame_witness :
  ∃ users,
    (getGameRun Resolved "G2"
       (upsertEdgeRun Resolved "A" "G2" "SET_ASIDE" (mkStore scenarioGraph [])).2).1
    = Json 200 (GameAndUsers (mkGame "G2" "Game Two") users)
    ∧ mkUWR (mkUser "A" "Ann") "SET_ASIDE" ∈ users.
Proof.
  apply (upsertEdge_then_getGame Resolved "A" "G2" "SET_ASIDE" "Ann" "Game Two"
           (mkStore scenarioGraph []));
    [discriminate|discriminate|reflexivity|reflexivity|reflexivity].
Defined.

(** ** The recommendations statement: empty results, justification of rows,
       evidence columns *)

Section RecommendFurther.

Implicit Types (G : Graph) (p : Path) (c : Candidate).

Lemma recommend_elem_inv G u c :
  c ∈ recommend G u →
  groupOf G u (rec c) ≠ []
  ∧ minZ (fst <$> groupOf G u (rec c)) = Some (mDist c)
  ∧ reason_games c = (λ row : Z * Path, node_c row.2) <$> groupOf G u (rec c)
  ∧ reason_rel c
    = (λ row : Z * Path, rel_type (p_b row.2).2) <$> groupOf G u (rec c)
  ∧ reason_rel_other c
    = (λ row : Z * Path, rel_type (p_d row.2).2) <$> groupOf G u (rec c).
Proof.
  rewrite elem_of_recommend, elem_of_returnRows. intros [_ Hc].
  unfold candidateOf in Hc. fold (groupOf G u (rec c)) in Hc.
  destruct (minZ (fst <$> groupOf G u (rec c))) as [m|] eqn:Hm; [|done].
  cbn in Hc. injection Hc as <-. cbn [rec mDist reason_games reason_rel
                                      reason_rel_other] in *.
  split_and!; try done.
  intros Hnil. rewrite Hnil in Hm. done.
Qed.

Lemma groupOf_qualifying G u g (s : Z) p :
  (s, p) ∈ groupOf G u g →
  qualifying G u (p_b p).2 (p_d p).2 (p_f p).2
  ∧ s = costOf (p_b p).2 (p_d p).2 (p_f p).2
  ∧ rel_to (p_f p).2 = g.
Proof.
  intros [Hg Hp]%list_elem_of_filter.
  apply scoredPaths_qualifying in Hp as [Hq Hs]. done.
Qed.

(** A target reached by a qualifying path has a row. *)
Lemma recommend_target_row G u (e1 e2 e3 : Rel) :
  qualifying G u e1 e2 e3 → ∃ c, c ∈ recommend G u ∧ rec c = rel_to e3.
Proof.
  intros Hq.
  destruct (qualifying_scoredPaths G u e1 e2 e3 Hq) as (p0 & Hp0 & _ & _ & Hf0).
  assert ((costOf e1 e2 e3, p0) ∈ groupOf G u (rel_to e3)) as Hgrp.
  { apply list_elem_of_filter. split; [|done]. unfold node_g. cbn. congruence. }
  destruct (minZ_is_Some (fst <$> groupOf G u (rel_to e3))) as [m Hm].
  { intros Hnil%fmap_nil_inv. rewrite Hnil in Hgrp.
    by apply not_elem_of_nil in Hgrp. }
  eexists (mkCandidate m (rel_to e3) _ _ _). split; [|done].
  apply elem_of_recommend, elem_of_returnRows. cbn [rec]. split.
  - apply list_elem_of_fmap. exists (costOf e1 e2 e3, p0). split.
    + unfold node_g. cbn. congruence.
    + by apply list_elem_of_filter in Hgrp as [_ ?].
  - unfold candidateOf. fold (groupOf G u (rel_to e3)). by rewrite Hm.
Qed.

(** Every row is justified by a qualifying path of its score. *)
Lemma recommend_row_path G u c :
  c ∈ recommend G u →
  ∃ e1 e2 e3, qualifying G u e1 e2 e3 ∧ rel_to e3 = rec c
              ∧ mDist c = costOf e1 e2 e3.
Proof.
  intros (_ & Hm & _)%recommend_elem_inv.
  apply minZ_spec in Hm as [Hin _].
  apply list_elem_of_fmap in Hin as ([s p] & -> & Hsp).
  apply groupOf_qualifying in Hsp as (Hq & -> & Hto).
  by exists (p_b p).2, (p_d p).2, (p_f p).2.
Qed.

Lemma connected_edgesOf G u (g k : string) (d : Z) :
  (g, k, d) ∈ edgesOf G u → connected G u g.
Proof.
  unfold edgesOf. intros (r & [= -> -> ->] & [Hu Hr]%list_elem_of_filter)%list_elem_of_fmap.
  apply Exists_exists. by exists r.
Qed.

(** Kinds of the vocabulary with the same distance are the same kind. *)
Lemma distanceOf_inj (k1 k2 : string) (d : Z) :
  isValid k1 = true → isValid k2 = true →
  distanceOf k1 = Some d → distanceOf k2 = Some d → k1 = k2.
Proof.
  intros H1%isValid_cases H2%isValid_cases.
  destruct H1 as [->|[->|[->|[->|[->| ->]]]]],
           H2 as [->|[->|[->|[->|[->| ->]]]]];
    vm_compute; congruence.
Qed.

Lemma distanceOf_bounds (k : string) (d : Z) :
  isValid k = true → distanceOf k = Some d → (1 ≤ d ≤ 13)%Z.
Proof.
  intros H1%isValid_cases.
  destruct H1 as [->|[->|[->|[->|[->| ->]]]]]; vm_compute; intros [= <-]; done.
Qed.

End RecommendFurther.

(** X14. The result is empty exactly when the user has no qualifying path:
    no relationship of the user meets one of equal distance to the same game
    from which a third one leads to a game the user is not connected to. *)
Theorem recommend_empty_iff (G : Graph) (u : string) :
  recommend G u = [] ↔ ¬ ∃ e1 e2 e3, qualifying G u e1 e2 e3.
Proof.
  split.
  - intros Hnil (e1 & e2 & e3 & Hq).
    destruct (recommend_target_row G u e1 e2 e3 Hq) as (c & Hc & _).
    rewrite Hnil in Hc. by apply not_elem_of_nil in Hc.
  - intros Hnone. destruct (recommend G u) as [|c l] eqn:Hrec; [done|].
    exfalso. apply Hnone.
    destruct (recommend_row_path G u c) as (e1 & e2 & e3 & Hq & _).
    { rewrite Hrec. left. }
    by exists e1, e2, e3.
Qed.

Lemma recommend_empty_iff_witness :
  ¬ ∃ e1 e2 e3, qualifying scenarioGraph "B" e1 e2 e3.
Proof.
  apply (proj1 (recommend_empty_iff scenarioGraph "B")).
  vm_compute. reflexivity.
Defined.

(** X15. A user without relationships (an unknown user included) gets an
    empty result. *)
Theorem recommend_no_edges (G : Graph) (u : string) :
  edgesOf G u = [] → recommend G u = [].
Proof.
  intros Hnone. destruct (recommend G u) as [|c l] eqn:Hrec; [done|].
  exfalso.
  destruct (recommend_row_path G u c) as (e1 & e2 & e3 & Hq & _).
  { rewrite Hrec. left. }
  destruct Hq as (H1 & _ & _ & Hu & _).
  pose proof (edgesOf_elem G u e1 H1 Hu) as Hin.
  rewrite Hnone in Hin. by apply not_elem_of_nil in Hin.
Qed.

Lemma recommend_no_edges_witness :
  edgesOf scenarioGraph "Z" = [] ∧ recommend scenarioGraph "Z" = [].
Proof.
  assert (edgesOf scenarioGraph "Z" = []) as H by reflexivity.
  split; [exact H|]. by apply recommend_no_edges.
Defined.

(** X16. Every row of the result is justified: its target is reached by a
    qualifying path whose cost is the score of the row, through a user other
    than the one asking; and the asking user has no relationship to the
    target, so no game of [edgesOf] is ever recommended. *)
Theorem recommend_rows_justified (G : Graph) (u : string) (c : Candidate) :
  c ∈ recommend G u →
  (∃ e1 e2 e3, qualifying G u e1 e2 e3 ∧ rel_to e3 = rec c
               ∧ mDist c = costOf e1 e2 e3 ∧ rel_from e2 ≠ u)
  ∧ ¬ connected G u (rec c)
  ∧ (∀ g k d, (g, k, d) ∈ edgesOf G u → g ≠ rec c).
Proof.
  intros Hc.
  destruct (recommend_row_path G u c Hc) as (e1 & e2 & e3 & Hq & Hto & Hm).
  assert (¬ connected G u (rec c)) as Hnc.
  { rewrite <- Hto. by destruct Hq as (_ & _ & _ & _ & _ & _ & _ & ?). }
  split_and!; [|done|].
  - exists e1, e2, e3. split_and!; try done. by eapply qualifying_other_user.
  - intros g k d Hin ->. apply Hnc. by eapply connected_edgesOf.
Qed.

Lemma recommend_rows_justified_witness :
  ¬ connected twoPathGraph "A" "G2".
Proof.
  destruct (recommend_rows_justified twoPathGraph "A"
              (mkCandidate 4 "G2" ["G4"; "G1"] ["SET_ASIDE"; "COMPLETE_100"]
                           ["SET_ASIDE"; "COMPLETE_100"]))
    as (_ & H1 & _).
  - assert (recommend twoPathGraph "A"
            = [ mkCandidate 4 "G2" ["G4"; "G1"] ["SET_ASIDE"; "COMPLETE_100"]
                            ["SET_ASIDE"; "COMPLETE_100"] ]) as ->
      by (vm_compute; reflexivity).
    left.
  - exact H1.
Defined.

(** X17. The three evidence columns of a row are not empty, have the same
    length and correspond index by index: the entries at an index are the
    shared game, the kind of the asking user's relationship to it and the kind
    of the other user's relationship to it, of one qualifying path to the
    target. *)
Theorem recommend_evidence_aligned (G : Graph) (u : string) (c : Candidate) :
  c ∈ recommend G u →
  reason_games c ≠ []
  ∧ length (reason_rel c) = length (reason_games c)
  ∧ length (reason_rel_other c) = length (reason_games c)
  ∧ ∀ (i : nat) (game k1 k2 : string),
      reason_games c !! i = Some game →
      reason_rel c !! i = Some k1 →
      reason_rel_other c !! i = Some k2 →
      ∃ e1 e2 e3, qualifying G u e1 e2 e3 ∧ rel_to e3 = rec c
                  ∧ rel_to e1 = game ∧ rel_type e1 = k1 ∧ rel_type e2 = k2.
Proof.
  intros (Hne & _ & -> & -> & ->)%recommend_elem_inv.
  rewrite !length_fmap. split_and!; [|done|done|].
  - intros Hnil%fmap_nil_inv. done.
  - intros i game k1 k2. rewrite !list_lookup_fmap.
    destruct (groupOf G u (rec c) !! i) as [[s p]|] eqn:Hi; [|done].
    cbn. intros [= <-] [= <-] [= <-].
    apply list_elem_of_lookup_2 in Hi.
    apply groupOf_qualifying in Hi as (Hq & _ & Hto).
    by exists (p_b p).2, (p_d p).2, (p_f p).2.
Qed.

Lemma recommend_evidence_aligned_witness :
  ∃ e1 e2 e3, qualifying twoPathGraph "A" e1 e2 e3 ∧ rel_to e3 = "G2"
              ∧ rel_to e1 = "G4" ∧ rel_type e1 = "SET_ASIDE"
              ∧ rel_type e2 = "SET_ASIDE".
Proof.
  destruct (recommend_evidence_aligned twoPathGraph "A"
              (mkCandidate 4 "G2" ["G4"; "G1"] ["SET_ASIDE"; "COMPLETE_100"]
                           ["SET_ASIDE"; "COMPLETE_100"]))
    as (_ & _ & _ & H).
  - assert (recommend twoPathGraph "A"
            = [ mkCandidate 4 "G2" ["G4"; "G1"] ["SET_ASIDE"; "COMPLETE_100"]
                            ["SET_ASIDE"; "COMPLETE_100"] ]) as ->
      by (vm_compute; reflexivity).
    left.
  - apply (H 0%nat "G4" "SET_ASIDE" "SET_ASIDE"); reflexivity.
Defined.

(** X18. In a store that started without relationships equal distance means
    equal kind, so the two kind columns of every row are the same list. *)
Theorem recommend_same_kinds (st : Store) (u : string) (c : Candidate) :
  reachable st → c ∈ recommend (graph st) u →
  reason_rel c = reason_rel_other c.
Proof.
  intros Hst (_ & _ & _ & -> & ->)%recommend_elem_inv.
  pose proof (reachable_wellFormed st Hst) as Hwf. rewrite Forall_forall in Hwf.
  apply Forall_fmap_ext, Forall_forall. intros [s p] Hsp.
  apply groupOf_qualifying in Hsp as ((H1 & H2 & _ & _ & _ & _ & Hd & _) & _).
  destruct (Hwf _ H1) as (Hv1 & Hd1 & _), (Hwf _ H2) as (Hv2 & Hd2 & _).
  cbn [snd]. apply (distanceOf_inj _ _ (rel_dist (p_b p).2)); try done.
  by rewrite Hd.
Qed.

Lemma recommend_same_kinds_witness :
  let st := (upsertEdge "B" "G2" "BEATEN"
               (upsertEdge "B" "G1" "SET_ASIDE"
                  (upsertEdge "A" "G1" "SET_ASIDE"
                     (mkStore nodesOnlyGraph [])).2).2).2 in
  recommend (graph st) "A"
  = [mkCandidate 12 "G2" ["G1"] ["SET_ASIDE"] ["SET_ASIDE"]]
  ∧ ["SET_ASIDE"] = ["SET_ASIDE"].
Proof.
  intros st.
  assert (recommend (graph st) "A"
          = [mkCandidate 12 "G2" ["G1"] ["SET_ASIDE"] ["SET_ASIDE"]]) as Hrec
    by (vm_compute; reflexivity).
  split; [exact Hrec|].
  apply (recommend_same_kinds st "A"
           (mkCandidate 12 "G2" ["G1"] ["SET_ASIDE"] ["SET_ASIDE"])).
  - do 3 apply reachable_upsert. by apply reachable_init.
  - rewrite Hrec. left.
Defined.

(** X19. Once [upsertEdge] has written a relationship from a user to a game,
    that game is not recommended to the user, whatever the kind. *)
Theorem upsertEdge_then_recommend (u g k : string) (st : Store) (c : Candidate) :
  u ≠ "" → g ≠ "" → isValid k = true →
  is_Some (g_users (graph st) !! u) → is_Some (g_games (graph st) !! g) →
  c ∈ recommend (graph (upsertEdge u g k st).2) u → rec c ≠ g.
Proof.
  intros Hu Hg Hk Hnu Hng Hc Hrec.
  destruct (upsertEdge_valid u g k st Hu Hg Hk) as (d & Hd & Heq).
  rewrite Heq in Hc. cbn [snd graph] in Hc.
  destruct (recommend_row_path _ u c Hc) as (e1 & e2 & e3 & Hq & Hto & _).
  destruct Hq as (_ & _ & _ & _ & _ & _ & _ & Hnc). apply Hnc.
  apply Exists_exists. exists (mkRel u k d g). split.
  - by apply mergeRelationship_elem.
  - cbn. split; [done|congruence].
Qed.

Lemma upsertEdge_then_recommend_witness :
  let G := graph (upsertEdge "A" "G2" "GOT_BORED" (mkStore tieGraph [])).2 in
  rec <$> recommend tieGraph "A" = ["G3"; "G2"]
  ∧ recommend G "A"
    = [mkCandidate 4 "G3" ["G1"] ["COMPLETE_100"] ["COMPLETE_100"]]
  ∧ "G3" ≠ "G2".
Proof.
  intros G.
  assert (recommend G "A"
          = [mkCandidate 4 "G3" ["G1"] ["COMPLETE_100"] ["COMPLETE_100"]]) as Hrec
    by (vm_compute; reflexivity).
  split_and!; [vm_compute; reflexivity|exact Hrec|].
  apply (upsertEdge_then_recommend "A" "G2" "GOT_BORED" (mkStore tieGraph [])
           (mkCandidate 4 "G3" ["G1"] ["COMPLETE_100"] ["COMPLETE_100"]));
    [discriminate|discriminate|reflexivity|by eexists|by eexists|].
  fold G. rewrite Hrec. left.
Defined.

(** X20. In a store that started without relationships every score is twice
    a distance of the vocabulary plus a distance of the vocabulary: at least 3
    and at most 39. *)
Theorem recommend_score_bounds (st : Store) (u : string) (c : Candidate) :
  reachable st → c ∈ recommend (graph st) u →
  (∃ k1 k3 d1 d3,
     distanceOf k1 = Some d1 ∧ distanceOf k3 = Some d3
     ∧ mDist c = (2 * d1 + d3)%Z)
  ∧ (3 ≤ mDist c ≤ 39)%Z.
Proof.
  intros Hst Hc.
  pose proof (reachable_wellFormed st Hst) as Hwf. rewrite Forall_forall in Hwf.
  destruct (recommend_row_path _ u c Hc) as (e1 & e2 & e3 & Hq & _ & Hm).
  destruct Hq as (H1 & H2 & H3 & _ & _ & _ & Hd & _).
  destruct (Hwf _ H1) as (Hv1 & Hd1 & _), (Hwf _ H3) as (Hv3 & Hd3 & _).
  pose proof (distanceOf_bounds _ _ Hv1 Hd1).
  pose proof (distanceOf_bounds _ _ Hv3 Hd3).
  unfold costOf in Hm. split; [|lia].
  exists (rel_type e1), (rel_type e3), (rel_dist e1), (rel_dist e3).
  split_and!; [done|done|lia].
Qed.

Lemma recommend_score_bounds_witness :
  let st := (upsertEdge "B" "G2" "BEATEN"
               (upsertEdge "B" "G1" "SET_ASIDE"
                  (upsertEdge "A" "G1" "SET_ASIDE"
                     (mkStore nodesOnlyGraph [])).2).2).2 in
  (3 ≤ 12 ≤ 39)%Z.
Proof.
  intros st.
  apply (recommend_score_bounds st "A"
           (mkCandidate 12 "G2" ["G1"] ["SET_ASIDE"] ["SET_ASIDE"])).
  - do 3 apply reachable_upsert. by apply reachable_init.
  - assert (recommend (graph st) "A"
            = [mkCandidate 12 "G2" ["G1"] ["SET_ASIDE"] ["SET_ASIDE"]]) as ->
      by (vm_compute; reflexivity).
    left.
Defined.

(** ** POST /games *)

Lemma gidFrom_nonempty (raw : string) : Gid.gidFrom raw ≠ "".
Proof.
  intros Heq. apply (f_equal list_ascii_of_string) in Heq.
  rewrite gidFrom_units, gidFromUnits_wordRuns in Heq. done.
Qed.

(** X21. An id that POST /games answers with is the slug of the name it was
    given and the id of the statement that was issued, and the other handlers
    never take it for a missing id: with it, [upsertEdge] of a non-empty user
    id and a valid kind hands its statement to the store (status 200 when it
    resolves, 500 when it rejects, never 400), and GET /games/:gameId runs its
    statement. *)
Theorem postGames_created_id (name : option string) (outcome : RunOutcome)
    (id n : string) :
  (postGames name outcome).2 = CreatedGame id n →
  name = Some n ∧ n ≠ "" ∧ id = Gid.gidFrom n ∧ outcome = Resolved
  ∧ (postGames name outcome).1 = Some (id, n)
  ∧ (∀ run u k st, u ≠ "" → isValid k = true →
       (upsertEdgeRun run u id k st).1
       = match run with
         | Resolved => SendStatus 200
         | Rejected message => Json 500 (Message message)
         end)
  ∧ (∀ run st, issued (getGameRun run id st).2 = issued st ++ [MatchGameUsers id]).
Proof.
  unfold postGames. destruct name as [n'|]; [|done].
  case_decide as Hn; [done|]. cbn [fst snd].
  destruct outcome; [|done]. intros [= <- <-].
  pose proof (gidFrom_nonempty n') as Hid.
  split_and!; [done|done|done|done|done| |].
  - intros run u k st Hu Hk.
    destruct (upsertEdgeRun_valid run u (Gid.gidFrom n') k st Hu Hid Hk)
      as (d & _ & ->).
    by destruct run.
  - intros run st. unfold getGameRun. by rewrite decide_False.
Qed.

Lemma postGames_created_id_witness :
  (postGames (Some "Mass Effect 3") Resolved).1
  = Some ("gid-mass-effect-3", "Mass Effect 3")
  ∧ (upsertEdgeRun Resolved "A" "gid-mass-effect-3" "BEATEN"
       (mkStore scenarioGraph [])).1
    = SendStatus 200.
Proof.
  destruct (postGames_created_id (Some "Mass Effect 3") Resolved
              "gid-mass-effect-3" "Mass Effect 3")
    as (_ & _ & _ & _ & H1 & H2 & _); [reflexivity|].
  split; [exact H1|]. apply (H2 Resolved); [discriminate|reflexivity].
Defined.

(** ** The recommendations statement and the order of the store *)

Lemma recommend_score_le (G : Graph) (u : string) (c : Candidate) (e1 e2 e3 : Rel) :
  c ∈ recommend G u → qualifying G u e1 e2 e3 → rel_to e3 = rec c →
  (mDist c ≤ costOf e1 e2 e3)%Z.
Proof.
  intros (_ & Hm & _)%recommend_elem_inv Hq Hto.
  apply minZ_spec in Hm as [_ Hle]. apply Hle.
  destruct (qualifying_scoredPaths G u e1 e2 e3 Hq) as (p & Hp & _ & _ & Hf).
  apply list_elem_of_fmap. exists (costOf e1 e2 e3, p). split; [done|].
  apply list_elem_of_filter. split; [|done]. unfold node_g. cbn. congruence.
Qed.

Lemma qualifying_Permutation (G G' : Graph) (u : string) (e1 e2 e3 : Rel) :
  g_rels G ≡ₚ g_rels G' → qualifying G u e1 e2 e3 → qualifying G' u e1 e2 e3.
Proof.
  intros Hperm (H1 & H2 & H3 & Hu & Hc & He & Hd & Hnc).
  unfold qualifying, connected in *. rewrite <- Hperm. done.
Qed.

(** X22. The targets and their scores do not depend on the order in which
    the store holds the relationships: for the same relationships in another
    order every row has a row of the same target and score. *)
Theorem recommend_store_order (G G' : Graph) (u : string) (c : Candidate) :
  g_rels G ≡ₚ g_rels G' → c ∈ recommend G u →
  ∃ c', c' ∈ recommend G' u ∧ rec c' = rec c ∧ mDist c' = mDist c.
Proof.
  intros Hperm Hc.
  destruct (recommend_row_path G u c Hc) as (e1 & e2 & e3 & Hq & Hto & Hm).
  pose proof (qualifying_Permutation G G' u _ _ _ Hperm Hq) as Hq'.
  destruct (recommend_target_row G' u e1 e2 e3 Hq') as (c' & Hc' & Hrec').
  exists c'. split_and!; [done|congruence|].
  destruct (recommend_row_path G' u c' Hc') as (a1 & a2 & a3 & Ha' & Hato & Hm').
  assert (qualifying G u a1 a2 a3) as Ha
    by (apply (qualifying_Permutation G' G); [by symmetry|done]).
  assert (mDist c' ≤ costOf e1 e2 e3)%Z
    by (apply (recommend_score_le G' u c'); [done|done|congruence]).
  assert (mDist c ≤ costOf a1 a2 a3)%Z
    by (apply (recommend_score_le G u c); [done|done|congruence]).
  lia.
Qed.

Lemma recommend_store_order_witness :
  ∃ c', c' ∈ recommend tieGraphSwapped "A" ∧ rec c' = "G3" ∧ mDist c' = 4%Z.
Proof.
  apply (recommend_store_order tieGraph tieGraphSwapped "A"
           (mkCandidate 4 "G3" ["G1"] ["COMPLETE_100"] ["COMPLETE_100"])).
  - cbn. do 2 apply Permutation_skip. apply Permutation_swap.
  - assert (recommend tieGraph "A"
            = [ mkCandidate 4 "G3" ["G1"] ["COMPLETE_100"] ["COMPLETE_100"];
                mkCandidate 4 "G2" ["G1"] ["COMPLETE_100"] ["COMPLETE_100"] ])
      as -> by (vm_compute; reflexivity).
    left.
Defined.
